(** * Monetarium wallet: size estimation, consolidation policy, SSFee shape

    A shallow embedding of
    - [wallet/txsizes/size.go]    (worst-case serialize size estimators),
    - [wallet/udb/consolidation.go] (per-account consolidation address),
    - the SSFee shape recogniser used by [wallet/udb] and the notification
      layer,
    together with the properties the specification states about them. *)

From Stdlib Require Import ZArith Lia.
From Stdlib.Strings Require Import Byte.
From stdpp Require Import base option list strings gmap.

Local Open Scope Z_scope.

(** ** Go's [int] and [uint64]

    The wallet targets 64-bit platforms: [int] is a 64-bit two's complement
    integer whose additions wrap around silently, and the conversion
    [uint64(x)] reinterprets the same 64 bits as an unsigned number. *)
Module GoInt.

Definition MinInt : Z := - 2 ^ 63.
Definition MaxInt : Z := 2 ^ 63 - 1.

(** The value a 64-bit signed register holds after storing [z]. *)
Definition wrap (z : Z) : Z := (z + 2 ^ 63) mod 2 ^ 64 - 2 ^ 63.

(** [a + b] on [int]. *)
Definition add (a b : Z) : Z := wrap (a + b).

(** [uint64(x)] for an [int] x. *)
Definition uint64 (z : Z) : Z := z mod 2 ^ 64.

(** [len(s)] of a slice. *)
Definition len {A : Type} (l : list A) : Z := Z.of_nat (length l).

(** The values an [int] variable can hold. *)
Definition in_range (z : Z) : Prop := MinInt <= z <= MaxInt.

(** Sum of a list of integers, without wrap-around (used to state what the
    accumulating loops compute). *)
Definition Zsum (l : list Z) : Z := foldr Z.add 0 l.

End GoInt.

(** ** The node's [wire] package, as far as the wallet code uses it *)
Module Wire.

(** [wire.VarIntSerializeSize] is imported from the node's wire package and
    is not part of the wallet sources.  It is the size of the compact
    integer encoding the comments of [size.go] refer to ("1 byte compact int
    encoding value 107"; the size test notes that 0xfd is the discriminant
    for 16-bit compact ints): one byte below 0xfd, then a discriminant byte
    followed by 2, 4 or 8 bytes.  The argument is a [uint64]. *)
Definition VarIntSerializeSize (val : Z) : Z :=
  if val <? 0xfd then 1
  else if val <=? 0xffff then 3
  else if val <=? 0xffffffff then 5
  else 9.

(** [wire.OutPoint]. *)
Record OutPoint := mkOutPoint {
  Hash : list byte;
  Index : Z;
  Tree : Z
}.

(** [wire.TxIn]. *)
Record TxIn := mkTxIn {
  PreviousOutPoint : OutPoint;
  SignatureScript : list byte;
  ValueIn : Z
}.

(** [wire.TxOut], with the dual-coin [CoinType] field. *)
Record TxOut := mkTxOut {
  Value : Z;
  CoinType : Z;
  Version : Z;
  PkScript : list byte
}.

(** [wire.MsgTx]; [MsgVersion] is the transaction's [Version] field. *)
Record MsgTx := mkMsgTx {
  MsgVersion : Z;
  MsgTxIn : list TxIn;
  MsgTxOut : list TxOut;
  LockTime : Z;
  Expiry : Z
}.

(** [wire.MaxPrevOutIndex]. *)
Definition MaxPrevOutIndex : Z := 0xffffffff.

End Wire.

(** ** [wallet/txsizes/size.go] *)
Module TxSizes.
Import GoInt Wire.

Definition RedeemP2PKSigScriptSize : Z := 1 + 73.
Definition RedeemP2PKHSigScriptSize : Z := 1 + 73 + 1 + 33.
Definition RedeemP2SHSigScriptSize : Z := 1 + 73 + 1 + 1 + 33 + 1.
Definition RedeemP2PKHInputSize : Z :=
  32 + 4 + 1 + 8 + 4 + 4 + 1 + RedeemP2PKHSigScriptSize + 4.
Definition P2PKHPkScriptSize : Z := 1 + 1 + 1 + 20 + 1 + 1.
Definition P2PKHOutputSize : Z := 8 + 1 + 2 + 1 + 25.

(** [EstimateInputSize]: the constants are folded by the compiler, the two
    variable terms and the trailing 4 are added at run time. *)
Definition EstimateInputSize (scriptSize : Z) : Z :=
  add (add (add (32 + 4 + 1 + 8 + 4 + 4)
                (VarIntSerializeSize (uint64 scriptSize))) scriptSize) 4.

Definition EstimateOutputSize (scriptSize : Z) : Z :=
  add (add (8 + 1 + 2) (VarIntSerializeSize (uint64 scriptSize))) scriptSize.

Definition EstimateOutputSizeSKA (scriptSize : Z) : Z :=
  add (add (1 + 1 + 16 + 2) (VarIntSerializeSize (uint64 scriptSize)))
      scriptSize.

Definition EstimateInputPrefixSize : Z := 32 + 4 + 1 + 4.

Definition EstimateInputWitnessSize (scriptSize : Z) : Z :=
  add (add (8 + 1 + 4 + 4) (VarIntSerializeSize (uint64 scriptSize)))
      scriptSize.

Definition EstimateInputWitnessSizeSKA (scriptSize : Z) : Z :=
  add (add (8 + 1 + 16 + 4 + 4) (VarIntSerializeSize (uint64 scriptSize)))
      scriptSize.

(** [EstimateSerializeSizeFromScriptSizes]: the loops are left folds over
    the slices, accumulating with [int] addition. *)
Definition EstimateSerializeSizeFromScriptSizes
    (inputSizes outputSizes : list Z) (changeScriptSize : Z) : Z :=
  let txInsSize :=
    foldl (fun acc inputSize => add acc (EstimateInputSize inputSize))
          0 inputSizes in
  let txOutsSize :=
    foldl (fun acc outputSize => add acc (EstimateOutputSize outputSize))
          0 outputSizes in
  let inputCount := len inputSizes in
  let outputCount := len outputSizes in
  let '(changeSize, outputCount) :=
    if 0 <? changeScriptSize
    then (EstimateOutputSize changeScriptSize, add outputCount 1)
    else (0, outputCount) in
  add (add (add (add (add 12
    (wrap (2 * VarIntSerializeSize (uint64 inputCount))))
    (VarIntSerializeSize (uint64 outputCount)))
    txInsSize) txOutsSize) changeSize.

Section WithTxOut.

(** The [SerializeSize] method of [wire.TxOut] belongs to the node's wire package; the
    estimators only add up whatever it returns. *)
Variable SerializeSize : TxOut -> Z.

Definition sumOutputSerializeSizes (outputs : list TxOut) : Z :=
  foldl (fun serializeSize txOut => add serializeSize (SerializeSize txOut))
        0 outputs.

Definition estimateSerializeSizeInternal
    (scriptSizes : list Z) (txOuts : list TxOut) (changeScriptSize : Z)
    (isSKA : bool) : Z :=
  let inputCount := len scriptSizes in
  let outputCount := len txOuts in
  let '(changeSize, outputCount) :=
    if negb (changeScriptSize =? 0)
    then ((if isSKA then EstimateOutputSizeSKA changeScriptSize
           else EstimateOutputSize changeScriptSize),
          add outputCount 1)
    else (0, outputCount) in
  let baseSize :=
    add (add (add 12 (VarIntSerializeSize (uint64 inputCount)))
             (VarIntSerializeSize (uint64 inputCount)))
        (VarIntSerializeSize (uint64 outputCount)) in
  let prefixInputsSize :=
    foldl (fun acc _ => add acc EstimateInputPrefixSize) 0 scriptSizes in
  let witnessInputsSize :=
    foldl (fun acc scriptSize =>
             add acc (if isSKA then EstimateInputWitnessSizeSKA scriptSize
                      else EstimateInputWitnessSize scriptSize))
          0 scriptSizes in
  let outputsSize := add (sumOutputSerializeSizes txOuts) changeSize in
  add (add (add baseSize prefixInputsSize) witnessInputsSize) outputsSize.

Definition EstimateSerializeSize
    (scriptSizes : list Z) (txOuts : list TxOut) (changeScriptSize : Z) : Z :=
  estimateSerializeSizeInternal scriptSizes txOuts changeScriptSize false.

Definition EstimateSerializeSizeSKA
    (scriptSizes : list Z) (txOuts : list TxOut) (changeScriptSize : Z) : Z :=
  estimateSerializeSizeInternal scriptSizes txOuts changeScriptSize true.

(** The total of the specification, over the integers: fixed header, the
    three counts, per input the prefix and the witness, the outputs, and
    the change output when one is requested ([changeScriptSize] not 0). *)
Definition witnessBytes (isSKA : bool) (s : Z) : Z :=
  8 + 1 + (if isSKA then 16 else 0) + 4 + 4
  + VarIntSerializeSize (uint64 s) + s.

Definition changeBytes (isSKA : bool) (c : Z) : Z :=
  if c =? 0 then 0
  else (if isSKA then 1 + 1 + 16 + 2 else 8 + 1 + 2)
       + VarIntSerializeSize (uint64 c) + c.

Definition changeCount (c : Z) : Z := if c =? 0 then 0 else 1.

Definition specTotal (isSKA : bool) (scriptSizes : list Z)
    (txOuts : list TxOut) (c : Z) : Z :=
  12 + VarIntSerializeSize (uint64 (len scriptSizes))
  + VarIntSerializeSize (uint64 (len scriptSizes))
  + VarIntSerializeSize (uint64 (len txOuts + changeCount c))
  + Zsum ((fun _ => 32 + 4 + 1 + 4) <$> scriptSizes)
  + Zsum (witnessBytes isSKA <$> scriptSizes)
  + Zsum (SerializeSize <$> txOuts)
  + changeBytes isSKA c.

End WithTxOut.

(** The outputs the size test builds, [&wire.TxOut{PkScript: make([]byte, l)}],
    and the serialize size of such a primary-asset output as the expected
    values of that test fix it: 8 bytes of amount, 1 of coin type, 2 of
    script version, the compact size of the script length and the script. *)
Definition testOutput (l : nat) : TxOut := mkTxOut 0 0 0 (replicate l x00).

Definition primaryOutputSerializeSize (o : TxOut) : Z :=
  8 + 1 + 2 + VarIntSerializeSize (len (PkScript o)) + len (PkScript o).

End TxSizes.

(** ** Errors of the wallet ([errors.E(op, kind, ...)]) *)
Module Errors.

Inductive Kind := Invalid | IO.

Record Error := E { Op : string; ErrKind : Kind }.

(** What a Go call does: it returns a value or panics at run time. *)
Inductive Outcome (A : Type) :=
| Returns (a : A)
| Panics.
Arguments Returns {A} a.
Arguments Panics {A}.

End Errors.

(** ** The storage collaborator ([walletdb]) *)
Module WalletDB.

(** Modelled from the spec: the transaction and bucket interfaces of package
    [walletdb], which is not among the sources.  The spec describes the
    consolidation store as a key-value bucket keyed by account name inside
    the wallet's transactional storage engine, whose failures surface as IO
    errors.  A transaction state holds the top-level buckets by key, each a
    finite map from keys to byte strings, and says which writes the engine
    refuses. *)
Record Tx := mkTx {
  Buckets : gmap string (gmap string (list byte));
  PutFault : string -> list byte -> bool;
  DeleteFault : string -> bool
}.

(** [dbtx.ReadBucket(key)] and [dbtx.ReadWriteBucket(key)]: the bucket, or
    nil when it does not exist. *)
Definition ReadBucket (dbtx : Tx) (key : string)
  : option (gmap string (list byte)) :=
  Buckets dbtx !! key.

Definition ReadWriteBucket (dbtx : Tx) (key : string)
  : option (gmap string (list byte)) :=
  Buckets dbtx !! key.

(** [b.Get(k)]: the stored value; nil exactly when the key has no record. *)
Definition Get (b : gmap string (list byte)) (k : string)
  : option (list byte) :=
  b !! k.

(** [b.Put(k, v)] on the bucket [bkey] of [dbtx], whose current content is
    [b]: the engine's error flag and the transaction state afterwards. *)
Definition Put (dbtx : Tx) (bkey : string) (b : gmap string (list byte))
    (k : string) (v : list byte) : bool * Tx :=
  if PutFault dbtx k v then (true, dbtx)
  else (false,
        mkTx (<[bkey := <[k := v]> b]> (Buckets dbtx))
             (PutFault dbtx) (DeleteFault dbtx)).

(** [b.Delete(k)]; deleting an absent key is not an error. *)
Definition Delete (dbtx : Tx) (bkey : string) (b : gmap string (list byte))
    (k : string) : bool * Tx :=
  if DeleteFault dbtx k then (true, dbtx)
  else (false,
        mkTx (<[bkey := delete k b]> (Buckets dbtx))
             (PutFault dbtx) (DeleteFault dbtx)).

End WalletDB.

(** ** [wallet/udb/consolidation.go] *)
Module Udb.
Import GoInt Errors WalletDB.

Definition accountConsolidationBucketKey : string := "accountconsolidation".

(** [make([]byte, n)]. *)
Definition make (n : nat) : list byte := replicate n x00.

(** The builtin [copy(dst, src)]: the content of [dst] afterwards. *)
Definition copy (dst src : list byte) : list byte :=
  let n := Nat.min (length dst) (length src) in
  take n src ++ drop n dst.

Definition SetAccountConsolidationAddr (dbtx : Tx) (accountName : string)
    (hash160 : list byte) : Outcome (option Error * Tx) :=
  let op := "udb.SetAccountConsolidationAddr" in
  if negb (len hash160 =? 20) then
    Returns (Some (E op Invalid), dbtx)
  else if String.eqb accountName "" then
    Returns (Some (E op Invalid), dbtx)
  else
    match ReadWriteBucket dbtx accountConsolidationBucketKey with
    | None => Panics
    | Some b =>
        let '(err, dbtx') :=
          Put dbtx accountConsolidationBucketKey b accountName hash160 in
        if err then Returns (Some (E op IO), dbtx')
        else Returns (None, dbtx')
    end.

(** The result pair is [(hash160, err)]; [None] is Go's nil in both
    components. *)
Definition GetAccountConsolidationAddr (dbtx : Tx) (accountName : string)
  : option (list byte) * option Error :=
  let op := "udb.GetAccountConsolidationAddr" in
  if String.eqb accountName "" then (None, Some (E op Invalid))
  else
    match ReadBucket dbtx accountConsolidationBucketKey with
    | None => (None, None)
    | Some b =>
        match Get b accountName with
        | None => (None, None)
        | Some hash160 =>
            if negb (len hash160 =? 20) then (None, Some (E op IO))
            else
              let result := make 20 in
              (Some (copy result hash160), None)
        end
    end.

Definition ClearAccountConsolidationAddr (dbtx : Tx) (accountName : string)
  : Outcome (option Error * Tx) :=
  let op := "udb.ClearAccountConsolidationAddr" in
  if String.eqb accountName "" then
    Returns (Some (E op Invalid), dbtx)
  else
    match ReadWriteBucket dbtx accountConsolidationBucketKey with
    | None => Panics
    | Some b =>
        let '(err, dbtx') :=
          Delete dbtx accountConsolidationBucketKey b accountName in
        if err then Returns (Some (E op IO), dbtx')
        else Returns (None, dbtx')
    end.

(** A store whose consolidation bucket exists and holds [records], with an
    engine that accepts every write. *)
Definition storeOf (records : gmap string (list byte)) : Tx :=
  mkTx {[accountConsolidationBucketKey := records]}
       (fun _ _ => false) (fun _ => false).

(** The call returned an error of kind [k]. *)
Definition returns_error (k : Kind) (o : Outcome (option Error * Tx)) : Prop :=
  exists op dbtx', o = Returns (Some (E op k), dbtx').

End Udb.

(** ** The SSFee shape recogniser *)
Module SSFee.
Import GoInt Wire.

(** The two flavours of the marker tag: "MF" (miner fee) and "SF" (staker
    fee). *)
Inductive Tag := MF | SF.

(** The marker carried by the final output: tag and encoded height. *)
Record SSFeeMarker := mkMarker {
  tag : Tag;
  encodedHeight : list byte
}.

(** The two ASCII bytes of a tag. *)
Definition tagBytes (t : Tag) : list byte :=
  match t with
  | MF => [x4d; x46]
  | SF => [x53; x46]
  end.

Definition OP_RETURN : byte := x6a.
Definition OP_DATA_6 : byte := x06.

(** Modelled from the spec: the marker script format, byte-exact
    [0x6a 0x06 <'M'|'S'> <'F'> <height: 4 bytes LE>]. *)
Definition parseMarkerScript (script : list byte) : option SSFeeMarker :=
  match script with
  | [op; push; t1; t2; h0; h1; h2; h3] =>
      if Byte.eqb op OP_RETURN && Byte.eqb push OP_DATA_6 then
        if Byte.eqb t1 x4d && Byte.eqb t2 x46
        then Some (mkMarker MF [h0; h1; h2; h3])
        else if Byte.eqb t1 x53 && Byte.eqb t2 x46
        then Some (mkMarker SF [h0; h1; h2; h3])
        else None
      else None
  | _ => None
  end.

(** A null input: zero hash and maximum index. *)
Definition isNullOutpoint (o : OutPoint) : bool :=
  forallb (Byte.eqb x00) (Hash o) && (Index o =? MaxPrevOutIndex).

(** Modelled from the spec: the single input is either a null input or a
    reference to a previous output with an empty signature script. *)
Definition inputShapeOk (txIn : TxIn) : bool :=
  isNullOutpoint (PreviousOutPoint txIn)
  || (len (SignatureScript txIn) =? 0).

(** All reward outputs share one coin type. *)
Definition sameCoinType (rewards : list TxOut) : bool :=
  match rewards with
  | [] => false
  | first :: rest => forallb (fun o => CoinType o =? CoinType first) rest
  end.

(** The outputs before the final one, and the final one. *)
Definition splitFinal (outs : list TxOut) : option (list TxOut * TxOut) :=
  match reverse outs with
  | [] => None
  | final :: before => Some (reverse before, final)
  end.

(** Modelled from the spec: the structural rule of the stake-fee
    distribution shape (the recogniser itself, [stake.CheckSSFee] behind
    [isSSFeeTx] of package [udb], is not among the sources).  All of these
    must hold: version at least 3; exactly one input of the accepted shape;
    a final output of value 0 carrying the marker; between 1 and 4 reward
    outputs before it, all of one coin type.  The result is the marker, or
    [None] when the transaction is not an SSFee. *)
Definition classifySSFee (tx : MsgTx) : option SSFeeMarker :=
  if negb (3 <=? MsgVersion tx) then None
  else
    match MsgTxIn tx with
    | [txIn] =>
        if negb (inputShapeOk txIn) then None
        else
          match splitFinal (MsgTxOut tx) with
          | None => None
          | Some (rewards, final) =>
              if negb (Value final =? 0) then None
              else
                match parseMarkerScript (PkScript final) with
                | None => None
                | Some marker =>
                    if (1 <=? len rewards) && (len rewards <=? 4)
                       && sameCoinType rewards
                    then Some marker
                    else None
                end
          end
    | _ => None
    end.

(** Modelled from the spec: the three helpers of package [udb] exercised by
    its SSFee tests ([isSSFeeTx], [getSSFeeType], [isSSFeeMinerTx]); their
    file is not among the sources.  [getSSFeeType] answers the empty string
    for a transaction that is not an SSFee, and the companion predicate
    reports true only when the tag is "MF". *)
Definition isSSFeeTx (tx : MsgTx) : bool :=
  match classifySSFee tx with
  | Some _ => true
  | None => false
  end.

Definition getSSFeeType (tx : MsgTx) : string :=
  match classifySSFee tx with
  | Some (mkMarker MF _) => "MF"
  | Some (mkMarker SF _) => "SF"
  | None => ""
  end.

Definition isSSFeeMinerTx (tx : MsgTx) : bool :=
  String.eqb (getSSFeeType tx) "MF".

(** The two tag bytes as they stand in the script of the final output
    ([PkScript[2:4]]), read without any shape check. *)
Definition markerTagBytes (tx : MsgTx) : option (list byte) :=
  match splitFinal (MsgTxOut tx) with
  | Some (_, final) => Some (take 2 (drop 2 (PkScript final)))
  | None => None
  end.

(** The transactions the package tests build with [createMockSSFeeTx]: a
    version-3 transaction with one null input, [numOutputs] reward outputs
    and the marker output. *)
Definition markerScript (t : Tag) : list byte :=
  [OP_RETURN; OP_DATA_6] ++ tagBytes t ++ [x00; x00; x00; x00].

Definition createMockSSFeeTx (ct : Z) (numOutputs : nat) (amount : Z)
    (markerType : Tag) : MsgTx :=
  mkMsgTx 3
    [mkTxIn (mkOutPoint (replicate 32 x00) MaxPrevOutIndex 0) [] 0]
    (replicate numOutputs (mkTxOut amount ct 0 (replicate 25 x00))
     ++ [mkTxOut 0 ct 0 (markerScript markerType)])
    0 0.

(** [tx.Version = v] on a transaction. *)
Definition withVersion (v : Z) (tx : MsgTx) : MsgTx :=
  mkMsgTx v (MsgTxIn tx) (MsgTxOut tx) (LockTime tx) (Expiry tx).

End SSFee.

(** ** The invariant of the consolidation store *)
Module UdbInvariant.
Import WalletDB Udb.

(** Every record of the consolidation bucket, if the bucket exists, is a
    20-byte hash. *)
Definition recordsWellFormed (dbtx : Tx) : Prop :=
  forall b a v,
    ReadBucket dbtx accountConsolidationBucketKey = Some b ->
    Get b a = Some v ->
    length v = 20%nat.

End UdbInvariant.

(** ** [wallet/txauthor]: authoring of unsigned transactions *)
Module TxAuthor.
Import GoInt Errors.

(** [a - b] on [int64] ([dcrutil.Amount] is an [int64]). *)
Definition sub (a b : Z) : Z := wrap (a - b).

(** The conversion [int32(x)]. *)
Definition int32 (z : Z) : Z := (z + 2 ^ 31) mod 2 ^ 32 - 2 ^ 31.

(** [wire.TxSerializeType]. *)
Inductive TxSerializeType :=
| TxSerializeFull
| TxSerializeNoWitness
| TxSerializeOnlyWitness.

(** [wire.TxOut] with all the fields the authoring code touches:
    [SKAValue] is a [*big.Int], nil for a primary-asset output. *)
Record TxOut := mkTxOut {
  Value : Z;
  SKAValue : option Z;
  CoinType : Z;
  Version : Z;
  PkScript : list byte
}.

(** [wire.MsgTx] over these outputs. *)
Record MsgTx := mkMsgTx {
  SerType : TxSerializeType;
  MsgVersion : Z;
  MsgTxIn : list Wire.TxIn;
  MsgTxOut : list TxOut;
  LockTime : Z;
  Expiry : Z
}.

Definition generatedTxVersion : Z := 1.

(** [cointype.CoinTypeVAR]. *)
Definition CoinTypeVAR : Z := 0.

(** [InputDetail].  [cointype.SKAAmount] is an arbitrary-precision integer
    (it wraps a [big.Int]); it is an integer here, and [Zero], [Add], [Sub],
    [Cmp], [IsZero], [IsNegative], [SKAAmountFromInt64] and [BigInt] are
    the operations on integers those names say. *)
Record InputDetail := mkInputDetail {
  Amount : Z;
  SKAAmount : Z;
  Inputs : list Wire.TxIn;
  Scripts : list (list byte);
  RedeemScriptSizes : list Z
}.

Record AuthoredTx := mkAuthoredTx {
  Tx : MsgTx;
  PrevScripts : list (list byte);
  TotalInput : Z;
  SKATotalInput : Z;
  ChangeIndex : Z;
  EstimatedSignedSerializeSize : Z
}.

(** The error kinds [NewUnsignedTransaction] raises itself. *)
Inductive Kind := Invalid | InsufficientBalance.

(** The three ways the function builds an error: [errors.E(op, err)] around
    a collaborator's error, [errors.E(op, kind)] and
    [errors.E(kind, message)]. *)
Inductive Error (E : Type) :=
| OpErr (op : string) (err : E)
| OpKind (op : string) (k : Kind)
| KindMsg (k : Kind) (msg : string).
Arguments OpErr {E} op err.
Arguments OpKind {E} op k.
Arguments KindMsg {E} k msg.

(** A [ChangeSource]: what its methods [Script] and [ScriptSize] return
    (each is called once). *)
Record ChangeSource (E : Type) := mkChangeSource {
  Script : (list byte * Z) + E;
  ScriptSize : Z
}.
Arguments Script {E} c.
Arguments ScriptSize {E} c.

Definition sumOutputValues (outputs : list TxOut) : Z :=
  foldl (fun totalOutput txOut => add totalOutput (Value txOut)) 0 outputs.

Definition sumSKAOutputValues (outputs : list TxOut) : Z :=
  foldl (fun total txOut =>
           match SKAValue txOut with
           | Some v => total + v
           | None => total
           end) 0 outputs.

(** What one pass through the loop body decides: go round again with a new
    fee target, or return. *)
Inductive Step (A : Type) :=
| Retry (targetFee : Z)
| Stop (result : A).
Arguments Retry {A} targetFee.
Arguments Stop {A} result.

Section Author.

(** Errors of the collaborators and the state of the input source (an
    [InputSource] is a closure that may remember what it handed out). *)
Context {E Src : Type}.

(** The collaborators that are not part of this package:
    [txrules.FeeForSerializeSize], [txrules.IsDustAmount],
    [wire.IsSKAEmissionTransaction], the method [IsSKA] of
    [cointype.CoinType], the method [SerializeSize] of [wire.TxOut] and the
    constant [txscript.MaxScriptElementSize]. *)
Variable FeeForSerializeSize : Z -> Z -> Z.
Variable IsDustAmount : Z -> Z -> Z -> bool.
Variable IsSKAEmissionTransaction : MsgTx -> bool.
Variable IsSKA : Z -> bool.
Variable SerializeSize : TxOut -> Z.
Variable MaxScriptElementSize : Z.

(** The input source: from its state and the target, the detail or an
    error, and its next state. *)
Variable fetchInputs : Src -> Z -> (InputDetail + E) * Src.

(** The estimators of [txsizes] ([TxSizes] above) on these outputs. *)
Definition sumOutputSerializeSizes (outputs : list TxOut) : Z :=
  foldl (fun serializeSize txOut => add serializeSize (SerializeSize txOut))
        0 outputs.

Definition estimateSerializeSizeInternal
    (scriptSizes : list Z) (txOuts : list TxOut) (changeScriptSize : Z)
    (isSKA : bool) : Z :=
  let inputCount := len scriptSizes in
  let outputCount := len txOuts in
  let '(changeSize, outputCount) :=
    if negb (changeScriptSize =? 0)
    then ((if isSKA then TxSizes.EstimateOutputSizeSKA changeScriptSize
           else TxSizes.EstimateOutputSize changeScriptSize),
          add outputCount 1)
    else (0, outputCount) in
  let baseSize :=
    add (add (add 12 (Wire.VarIntSerializeSize (uint64 inputCount)))
             (Wire.VarIntSerializeSize (uint64 inputCount)))
        (Wire.VarIntSerializeSize (uint64 outputCount)) in
  let prefixInputsSize :=
    foldl (fun acc _ => add acc TxSizes.EstimateInputPrefixSize)
          0 scriptSizes in
  let witnessInputsSize :=
    foldl (fun acc scriptSize =>
             add acc (if isSKA
                      then TxSizes.EstimateInputWitnessSizeSKA scriptSize
                      else TxSizes.EstimateInputWitnessSize scriptSize))
          0 scriptSizes in
  let outputsSize := add (sumOutputSerializeSizes txOuts) changeSize in
  add (add (add baseSize prefixInputsSize) witnessInputsSize) outputsSize.

Definition EstimateSerializeSize
    (scriptSizes : list Z) (txOuts : list TxOut) (changeScriptSize : Z) : Z :=
  estimateSerializeSizeInternal scriptSizes txOuts changeScriptSize false.

Definition EstimateSerializeSizeSKA
    (scriptSizes : list Z) (txOuts : list TxOut) (changeScriptSize : Z) : Z :=
  estimateSerializeSizeInternal scriptSizes txOuts changeScriptSize true.

Definition op : string := "txauthor.NewUnsignedTransaction".

(** [len(outputs) > 0 && outputs[0].CoinType.IsSKA()]. *)
Definition isSKAOutputs (outputs : list TxOut) : bool :=
  match outputs with
  | first :: _ => IsSKA (CoinType first)
  | [] => false
  end.

(** The body of the [for] loop, from the fee target and the state of the
    input source. *)
Definition iteration
    (outputs : list TxOut) (relayFeePerKb : Z)
    (changeScript : list byte) (changeScriptVersion changeScriptSize : Z)
    (maxTxSize : Z) (targetFee : Z) (st : Src)
  : Step (AuthoredTx + Error E) * Src :=
  let isSKA := isSKAOutputs outputs in
  let targetAmount := sumOutputValues outputs in
  let targetSKAAmount := if isSKA then sumSKAOutputValues outputs else 0 in
  let inputTarget := if isSKA then 0 else add targetAmount targetFee in
  match fetchInputs st inputTarget with
  | (inr err, st') => (Stop (inr (OpErr op err)), st')
  | (inl inputDetail, st') =>
      if (if isSKA
          then SKAAmount inputDetail <? targetSKAAmount + targetFee
          else Amount inputDetail <? add targetAmount targetFee)
      then (Stop (inr (OpKind op InsufficientBalance)), st')
      else
        let scriptSizes := RedeemScriptSizes inputDetail in
        let maxSignedSize :=
          if isSKA
          then EstimateSerializeSizeSKA scriptSizes outputs changeScriptSize
          else EstimateSerializeSize scriptSizes outputs changeScriptSize in
        let tempTxWithInputs :=
          mkMsgTx TxSerializeFull generatedTxVersion (Inputs inputDetail)
                  outputs 0 0 in
        let maxRequiredFee :=
          if IsSKAEmissionTransaction tempTxWithInputs then 0
          else FeeForSerializeSize relayFeePerKb maxSignedSize in
        if (if isSKA
            then SKAAmount inputDetail - targetSKAAmount <? maxRequiredFee
            else sub (Amount inputDetail) targetAmount <? maxRequiredFee)
        then (Retry maxRequiredFee, st')
        else if maxTxSize <? maxSignedSize
        then (Stop (inr (KindMsg Invalid
                           "signed tx size exceeds allowed maximum")), st')
        else
          let changeAmount :=
            if isSKA then 0
            else sub (sub (Amount inputDetail) targetAmount)
                     maxRequiredFee in
          let changeSKAAmount :=
            if isSKA
            then SKAAmount inputDetail - targetSKAAmount - maxRequiredFee
            else 0 in
          let dustFeeRate := relayFeePerKb in
          let hasChange :=
            if isSKA
            then negb (changeSKAAmount =? 0) && negb (changeSKAAmount <? 0)
            else negb (changeAmount =? 0)
                 && negb (IsDustAmount changeAmount changeScriptSize
                            dustFeeRate) in
          if hasChange then
            if MaxScriptElementSize <? len changeScript
            then (Stop (inr (KindMsg Invalid
                   "script size exceed maximum bytes pushable to the stack")),
                  st')
            else
              let changeCoinType :=
                match outputs with
                | first :: _ => CoinType first
                | [] => CoinTypeVAR
                end in
              let change :=
                if isSKA
                then mkTxOut 0 (Some changeSKAAmount) changeCoinType
                             changeScriptVersion changeScript
                else mkTxOut changeAmount None changeCoinType
                             changeScriptVersion changeScript in
              let l := len outputs in
              (Stop (inl (mkAuthoredTx
                            (mkMsgTx TxSerializeFull generatedTxVersion
                               (Inputs inputDetail) (outputs ++ [change])
                               0 0)
                            (Scripts inputDetail)
                            (Amount inputDetail)
                            (SKAAmount inputDetail)
                            l
                            maxSignedSize)), st')
          else
            let maxSignedSize :=
              if isSKA
              then EstimateSerializeSizeSKA scriptSizes outputs 0
              else EstimateSerializeSize scriptSizes outputs 0 in
            (Stop (inl (mkAuthoredTx
                          (mkMsgTx TxSerializeFull generatedTxVersion
                             (Inputs inputDetail) outputs 0 0)
                          (Scripts inputDetail)
                          (Amount inputDetail)
                          (SKAAmount inputDetail)
                          (-1)
                          maxSignedSize)), st')
  end.

(** The [for] loop: [fuel] bounds the number of passes, [None] means that
    the bound was reached before the loop returned. *)
Fixpoint authorLoop
    (fuel : nat) (outputs : list TxOut) (relayFeePerKb : Z)
    (changeScript : list byte) (changeScriptVersion changeScriptSize : Z)
    (maxTxSize : Z) (targetFee : Z) (st : Src)
  : option ((AuthoredTx + Error E) * Src) :=
  match fuel with
  | O => None
  | S fuel' =>
      match iteration outputs relayFeePerKb changeScript changeScriptVersion
              changeScriptSize maxTxSize targetFee st with
      | (Retry targetFee', st') =>
          authorLoop fuel' outputs relayFeePerKb changeScript
            changeScriptVersion changeScriptSize maxTxSize targetFee' st'
      | (Stop result, st') => Some (result, st')
      end
  end.

(** The fee target the loop starts from: the fee of the estimate with one
    worst-case P2PKH input, or 0 for an SKA emission. *)
Definition initialTargetFee
    (outputs : list TxOut) (relayFeePerKb changeScriptSize : Z) : Z :=
  let isSKA := isSKAOutputs outputs in
  let scriptSizes := [TxSizes.RedeemP2PKHSigScriptSize] in
  let maxSignedSize :=
    if isSKA
    then EstimateSerializeSizeSKA scriptSizes outputs changeScriptSize
    else EstimateSerializeSize scriptSizes outputs changeScriptSize in
  let targetFee := FeeForSerializeSize relayFeePerKb maxSignedSize in
  let tempTx :=
    mkMsgTx TxSerializeFull generatedTxVersion [] outputs 0 0 in
  if IsSKAEmissionTransaction tempTx then 0 else targetFee.

Definition NewUnsignedTransaction
    (fuel : nat) (outputs : list TxOut) (relayFeePerKb : Z) (st : Src)
    (fetchChange : ChangeSource E) (maxTxSize : Z)
  : option ((AuthoredTx + Error E) * Src) :=
  match Script fetchChange with
  | inr err => Some (inr (OpErr op err), st)
  | inl (changeScript, changeScriptVersion) =>
      let changeScriptSize := ScriptSize fetchChange in
      authorLoop fuel outputs relayFeePerKb changeScript
        changeScriptVersion changeScriptSize maxTxSize
        (initialTargetFee outputs relayFeePerKb changeScriptSize) st
  end.

(** Names for what a pass computes from the detail the input source
    returned: the estimate with the change output, the fee required for
    it, and the coin type a change output gets. *)
Definition sizeWithChange
    (outputs : list TxOut) (changeScriptSize : Z) (d : InputDetail) : Z :=
  if isSKAOutputs outputs
  then EstimateSerializeSizeSKA (RedeemScriptSizes d) outputs changeScriptSize
  else EstimateSerializeSize (RedeemScriptSizes d) outputs changeScriptSize.

Definition requiredFee
    (outputs : list TxOut) (relayFeePerKb changeScriptSize : Z)
    (d : InputDetail) : Z :=
  if IsSKAEmissionTransaction
       (mkMsgTx TxSerializeFull generatedTxVersion (Inputs d) outputs 0 0)
  then 0
  else FeeForSerializeSize relayFeePerKb
         (sizeWithChange outputs changeScriptSize d).

Definition changeCoinTypeOf (outputs : list TxOut) : Z :=
  match outputs with
  | first :: _ => CoinType first
  | [] => CoinTypeVAR
  end.

End Author.

(** [a[i]] for an [int] index: nothing when the index is out of range. *)
Definition at_index {A : Type} (l : list A) (i : Z) : option A :=
  if i <? 0 then None else l !! Z.to_nat i.

(** [RandomizeOutputPosition]; [r] is the number [rand.Int32N] returned,
    which panics when its argument is not positive.  The result is the
    content of the slice after the swap and the new index; an index out of
    range panics. *)
Definition RandomizeOutputPosition
    (r : Z) (outputs : list TxOut) (index : Z) : Outcome (list TxOut * Z) :=
  if int32 (len outputs) <=? 0 then Panics
  else
    match at_index outputs index, at_index outputs r with
    | Some atIndex, Some atR =>
        Returns (<[Z.to_nat index := atR]>
                   (<[Z.to_nat r := atIndex]> outputs), r)
    | _, _ => Panics
    end.

(** What [AddAllInputScripts] returns besides the signer's own errors: the
    [errors.New] of a length mismatch. *)
Inductive SignError (E : Type) :=
| LengthMismatch
| SignerError (err : E).
Arguments LengthMismatch {E}.
Arguments SignerError {E} err.

Section Signing.
Context {E : Type}.

(** [sign.SignTxOutput] with the chain parameters, hash type and secrets of
    the call: from the transaction as it stands, the input index, the
    previous output script and the input's current signature script, the
    new signature script or an error. *)
Variable SignTxOutput :
  MsgTx -> nat -> list byte -> list byte -> list byte + E.

(** [inputs[i].SignatureScript = script]. *)
Definition setSignatureScript (tx : MsgTx) (i : nat) (script : list byte)
  : MsgTx :=
  mkMsgTx (SerType tx) (MsgVersion tx)
    (alter (fun txIn => Wire.mkTxIn (Wire.PreviousOutPoint txIn) script
                          (Wire.ValueIn txIn)) i (MsgTxIn tx))
    (MsgTxOut tx) (LockTime tx) (Expiry tx).

(** The loop [for i := range inputs] over the indices still to visit; the
    result is the transaction as the loop left it and the error returned,
    if any. *)
Fixpoint signInputs (indices : list nat) (prevPkScripts : list (list byte))
    (tx : MsgTx) : Outcome (MsgTx * option (SignError E)) :=
  match indices with
  | [] => Returns (tx, None)
  | i :: rest =>
      match prevPkScripts !! i, MsgTxIn tx !! i with
      | Some pkScript, Some txIn =>
          match SignTxOutput tx i pkScript (Wire.SignatureScript txIn) with
          | inr err => Returns (tx, Some (SignerError err))
          | inl script =>
              signInputs rest prevPkScripts (setSignatureScript tx i script)
          end
      | _, _ => Panics
      end
  end.

Definition AddAllInputScripts (tx : MsgTx) (prevPkScripts : list (list byte))
  : Outcome (MsgTx * option (SignError E)) :=
  if negb (len (MsgTxIn tx) =? len prevPkScripts)
  then Returns (tx, Some LengthMismatch)
  else signInputs (seq 0 (length (MsgTxIn tx))) prevPkScripts tx.

End Signing.

Definition RandomizeChangePosition (r : Z) (tx : AuthoredTx)
  : Outcome AuthoredTx :=
  match RandomizeOutputPosition r (MsgTxOut (Tx tx)) (ChangeIndex tx) with
  | Returns (outputs, index) =>
      Returns (mkAuthoredTx
                 (mkMsgTx (SerType (Tx tx)) (MsgVersion (Tx tx))
                    (MsgTxIn (Tx tx)) outputs (LockTime (Tx tx))
                    (Expiry (Tx tx)))
                 (PrevScripts tx) (TotalInput tx) (SKATotalInput tx)
                 index (EstimatedSignedSerializeSize tx))
  | Panics => Panics
  end.

(** Collaborators to run the model on: the input sources, the change
    source and the outputs of [TestTxAuthorFeeHandling], with a fee of
    [rate * size / 1000], no dust rule, no emission transactions, every
    coin type but 0 a secondary asset, outputs serialized as the size test
    expects, and the 2048-byte limit on script elements. *)
Definition sampleFee (relayFeePerKb size : Z) : Z :=
  relayFeePerKb * size / 1000.

Definition sampleIsSKA (coinType : Z) : bool := negb (coinType =? 0).

Definition sampleSerializeSize (o : TxOut) : Z :=
  8 + 1 + 2 + Wire.VarIntSerializeSize (len (PkScript o))
  + len (PkScript o).

Definition mockInput (valueIn : Z) : Wire.TxIn :=
  Wire.mkTxIn (Wire.mkOutPoint (replicate 32 x00) 0 0) [] valueIn.

Definition varInputSource (st : unit) (target : Z)
  : (InputDetail + unit) * unit :=
  (inl (mkInputDetail (add target 1000) 0 [mockInput (add target 1000)]
          [] [25]), st).

Definition skaInputSource (st : unit) (target : Z)
  : (InputDetail + unit) * unit :=
  (inl (mkInputDetail (100000000 + 10000) (100000000 + 10000)
          [mockInput (100000000 + 10000)] [] [25]), st).

(** An input source that supplies exactly the target with one input of a
    200-byte signature script. *)
Definition exactInputSource (st : unit) (target : Z)
  : (InputDetail + unit) * unit :=
  (inl (mkInputDetail target 0 [mockInput target] [] [200]), st).

Definition mockChangeSource : ChangeSource unit :=
  mkChangeSource unit (inl (replicate 25 x00, 0)) 25.

Definition varOutputs : list TxOut :=
  [mkTxOut 100000000 None CoinTypeVAR 0 []].

Definition skaOutputs : list TxOut :=
  [mkTxOut 0 (Some 100000000) 1 0 []].

(** The call of the test on a source. *)
Definition sampleAuthor
    (fetchInputs : unit -> Z -> (InputDetail + unit) * unit)
    (outputs : list TxOut)
  : option ((AuthoredTx + Error unit) * unit) :=
  NewUnsignedTransaction sampleFee (fun _ _ _ => false) (fun _ => false)
    sampleIsSKA sampleSerializeSize 2048 fetchInputs
    3 outputs 1000 tt mockChangeSource 100000.

End TxAuthor.

(** ** Arithmetic of [int] and [uint64] *)
Module GoIntFacts.
Import GoInt.

Lemma wrap_in_range z : in_range (wrap z).
Proof.
  unfold in_range, wrap, MinInt, MaxInt.
  pose proof (Z.mod_pos_bound (z + 2 ^ 63) (2 ^ 64)). lia.
Qed.

Lemma wrap_small z : in_range z -> wrap z = z.
Proof.
  unfold in_range, wrap, MinInt, MaxInt. intros Hz.
  rewrite Z.mod_small; lia.
Qed.

Lemma wrap_wrap z : wrap (wrap z) = wrap z.
Proof. apply wrap_small, wrap_in_range. Qed.

Lemma wrap_add_l a b : wrap (wrap a + b) = wrap (a + b).
Proof.
  unfold wrap. f_equal.
  replace ((a + 2 ^ 63) mod 2 ^ 64 - 2 ^ 63 + b + 2 ^ 63)
    with ((a + 2 ^ 63) mod 2 ^ 64 + b) by lia.
  rewrite Zplus_mod_idemp_l. f_equal. lia.
Qed.

Lemma wrap_add_r a b : wrap (a + wrap b) = wrap (a + b).
Proof. rewrite (Z.add_comm a (wrap b)), wrap_add_l. f_equal. lia. Qed.

Lemma uint64_wrap z : uint64 (wrap z) = uint64 z.
Proof.
  unfold uint64, wrap.
  rewrite Zminus_mod_idemp_l. f_equal. lia.
Qed.

Lemma uint64_small z : 0 <= z < 2 ^ 64 -> uint64 z = z.
Proof. intros Hz. unfold uint64. now apply Z.mod_small. Qed.


Lemma len_nonneg {A} (l : list A) : 0 <= len l.
Proof. unfold len. lia. Qed.

Lemma len_cons {A} (x : A) l : len (x :: l) = len l + 1.
Proof. unfold len. cbn [length]. lia. Qed.

Lemma Zsum_const {A} (k : Z) (l : list A) :
  Zsum ((fun _ => k) <$> l) = k * len l.
Proof.
  induction l as [|x l IH]; [unfold len; cbn; lia|].
  rewrite len_cons, Z.mul_add_distr_l. unfold Zsum in *. cbn [fmap list_fmap foldr] in *. lia.
Qed.

Lemma Zsum_shift {A} (f : A -> Z) (k : Z) (l : list A) :
  Zsum ((fun x => f x + k) <$> l) = Zsum (f <$> l) + k * len l.
Proof.
  induction l as [|x l IH]; [unfold len; cbn; lia|].
  rewrite len_cons, Z.mul_add_distr_l. unfold Zsum in *. cbn [fmap list_fmap foldr] in *. lia.
Qed.

Lemma Zsum_ext {A} (f g : A -> Z) (l : list A) :
  (forall x, f x = g x) -> Zsum (f <$> l) = Zsum (g <$> l).
Proof.
  intros Hfg. induction l as [|x l IH]; [reflexivity|].
  unfold Zsum in *. cbn [fmap list_fmap foldr] in *. rewrite Hfg. lia.
Qed.

(** A Go loop [for _, x := range l { acc += f(x) }] computes the wrapped
    sum, whatever the accumulator starts from; [g] is [f] up to wrap-around. *)
Lemma loop_sum_from {A} (f g : A -> Z) (l : list A) (a : Z) :
  (forall x, wrap (f x) = wrap (g x)) ->
  wrap (foldl (fun acc x => add acc (f x)) a l) = wrap (a + Zsum (g <$> l)).
Proof.
  intros Hfg. revert a. induction l as [|x l IH]; intros a.
  - cbn. f_equal. lia.
  - unfold Zsum in *. cbn [foldl fmap list_fmap foldr]. rewrite IH. unfold add.
    rewrite wrap_add_l.
    replace (a + f x + foldr Z.add 0 (g <$> l))
      with (a + foldr Z.add 0 (g <$> l) + f x) by lia.
    rewrite <- wrap_add_r, Hfg, wrap_add_r. f_equal. lia.
Qed.

Lemma loop_fixed {A} (f : A -> Z) (l : list A) (a : Z) :
  wrap a = a ->
  wrap (foldl (fun acc x => add acc (f x)) a l)
  = foldl (fun acc x => add acc (f x)) a l.
Proof.
  revert a. induction l as [|x l IH]; intros a Ha; [exact Ha|].
  cbn [foldl]. apply IH. unfold add. apply wrap_wrap.
Qed.

Lemma loop_sum {A} (f g : A -> Z) (l : list A) :
  (forall x, wrap (f x) = wrap (g x)) ->
  foldl (fun acc x => add acc (f x)) 0 l = wrap (Zsum (g <$> l)).
Proof.
  intros Hfg. rewrite <- (loop_fixed f l 0) by reflexivity.
  rewrite (loop_sum_from f g) by exact Hfg. f_equal.
Qed.

(** Two integers that differ by a multiple of 2^64 wrap to the same [int]. *)
Lemma wrap_decomp x : exists k, wrap x = x + 18446744073709551616 * k.
Proof.
  unfold wrap. exists (- ((x + 2 ^ 63) / 2 ^ 64)).
  pose proof (Z.div_mod (x + 2 ^ 63) (2 ^ 64)). lia.
Qed.

Lemma wrap_congr a b :
  (a - b) mod 18446744073709551616 = 0 -> wrap a = wrap b.
Proof.
  intros H. apply Z.mod_divide in H; [|lia]. destruct H as [q Hq].
  unfold wrap. f_equal.
  replace (a + 2 ^ 63) with (b + 2 ^ 63 + q * 2 ^ 64) by lia.
  apply Z_mod_plus_full.
Qed.

(** Replace every inner [wrap x] by [x] plus an unknown multiple of 2^64. *)
Ltac open_wraps :=
  repeat match goal with
         | |- context [wrap ?x] =>
             let k := fresh "k" in
             let E := fresh "E" in
             destruct (wrap_decomp x) as [k E]; rewrite E; clear E
         end.

(** Decide an equation [wrap a = wrap b] between sums of [int] additions. *)
Ltac wrap_solve :=
  unfold add; apply wrap_congr; open_wraps; Z.div_mod_to_equations; lia.

End GoIntFacts.

(** ** Properties of the size estimators *)
Module TxSizesFacts.
Import GoInt GoIntFacts Wire TxSizes.

Lemma VarIntSerializeSize_bounds v : 1 <= VarIntSerializeSize v <= 9.
Proof.
  unfold VarIntSerializeSize.
  repeat match goal with |- context [if ?b then _ else _] => destruct b end;
    lia.
Qed.

Lemma VarIntSerializeSize_mono u v :
  u <= v -> VarIntSerializeSize u <= VarIntSerializeSize v.
Proof.
  intros Huv. unfold VarIntSerializeSize.
  repeat match goal with
         | |- context [?a <? ?b] => destruct (Z.ltb_spec a b)
         | |- context [?a <=? ?b] => destruct (Z.leb_spec a b)
         end; lia.
Qed.


Lemma wrap_EstimateInputSize s :
  wrap (EstimateInputSize s)
  = wrap (32 + 4 + 1 + 8 + 4 + 4 + VarIntSerializeSize (uint64 s) + s + 4).
Proof. unfold EstimateInputSize. wrap_solve. Qed.

Lemma wrap_EstimateOutputSize s :
  wrap (EstimateOutputSize s)
  = wrap (8 + 1 + 2 + VarIntSerializeSize (uint64 s) + s).
Proof. unfold EstimateOutputSize. wrap_solve. Qed.

Lemma wrap_EstimateOutputSizeSKA s :
  wrap (EstimateOutputSizeSKA s)
  = wrap (1 + 1 + 16 + 2 + VarIntSerializeSize (uint64 s) + s).
Proof. unfold EstimateOutputSizeSKA. wrap_solve. Qed.

Lemma wrap_witness (isSKA : bool) (s : Z) :
  wrap (if isSKA then EstimateInputWitnessSizeSKA s
        else EstimateInputWitnessSize s)
  = wrap (witnessBytes isSKA s).
Proof.
  unfold witnessBytes, EstimateInputWitnessSizeSKA, EstimateInputWitnessSize.
  destruct isSKA; wrap_solve.
Qed.

(** Rows of the table of [TestEstimateSerializeSize]. *)
Example test_row_1 :
  EstimateSerializeSize primaryOutputSerializeSize
    [RedeemP2PKHSigScriptSize] [testOutput 25] 0 = 219.
Proof. vm_compute. reflexivity. Qed.

Example test_row_3 :
  EstimateSerializeSize primaryOutputSerializeSize
    [RedeemP2PKHSigScriptSize] [testOutput 25] P2PKHPkScriptSize = 256.
Proof. vm_compute. reflexivity. Qed.

Example test_row_11 :
  EstimateSerializeSize primaryOutputSerializeSize
    [RedeemP2PKHSigScriptSize; RedeemP2PKHSigScriptSize] [testOutput 23]
    P2PKHPkScriptSize = 421.
Proof. vm_compute. reflexivity. Qed.

Example test_row_12 :
  EstimateSerializeSize primaryOutputSerializeSize
    [RedeemP2PKHSigScriptSize] (replicate 0xfc (testOutput 25)) 0 = 9506.
Proof. vm_compute. reflexivity. Qed.

Example test_row_13 :
  EstimateSerializeSize primaryOutputSerializeSize
    [RedeemP2PKHSigScriptSize] (replicate 0xfd (testOutput 25)) 0 = 9545.
Proof. vm_compute. reflexivity. Qed.

Example test_row_14 :
  EstimateSerializeSize primaryOutputSerializeSize
    [RedeemP2PKHSigScriptSize] (replicate 0xfc (testOutput 25))
    P2PKHPkScriptSize = 9545.
Proof. vm_compute. reflexivity. Qed.

Example test_row_15 :
  EstimateSerializeSize primaryOutputSerializeSize
    (replicate 0xfc RedeemP2PKHSigScriptSize) [] 0 = 42099.
Proof. vm_compute. reflexivity. Qed.

Example test_row_16 :
  EstimateSerializeSize primaryOutputSerializeSize
    (replicate 0xfd RedeemP2PKHSigScriptSize) [] 0 = 42270.
Proof. vm_compute. reflexivity. Qed.

Section WithTxOut.
Variable SerializeSize : TxOut -> Z.

(** The internal estimator computes the total of the specification, in
    [int] arithmetic. *)
Lemma estimateSerializeSizeInternal_total ss outs c (isSKA : bool) :
  estimateSerializeSizeInternal SerializeSize ss outs c isSKA
  = wrap (specTotal SerializeSize isSKA ss outs c).
Proof.
  unfold estimateSerializeSizeInternal, sumOutputSerializeSizes, specTotal,
    changeBytes, changeCount, EstimateInputPrefixSize.
  rewrite (loop_sum (fun _ : Z => 32 + 4 + 1 + 4) (fun _ => 32 + 4 + 1 + 4))
    by reflexivity.
  rewrite (loop_sum _ (witnessBytes isSKA)) by (intros; apply wrap_witness).
  rewrite (loop_sum SerializeSize SerializeSize) by reflexivity.
  unfold EstimateOutputSize, EstimateOutputSizeSKA.
  destruct (c =? 0); cbn [negb].
  - rewrite (Z.add_0_r (len outs)). wrap_solve.
  - change (add (len outs) 1) with (wrap (len outs + 1)).
    rewrite uint64_wrap. destruct isSKA; wrap_solve.
Qed.

Lemma EstimateSerializeSize_in_range ss outs c :
  in_range (EstimateSerializeSize SerializeSize ss outs c).
Proof.
  unfold EstimateSerializeSize. rewrite estimateSerializeSizeInternal_total.
  apply wrap_in_range.
Qed.

(** C1: for every list of input script sizes, every list of outputs and
    every change script size c (0 meaning that no change is requested),
    [EstimateSerializeSize] returns 12 + varint(inputCount) +
    varint(inputCount) + varint(outputCount, one more with change) + 41
    bytes of prefix per input + a witness of 8+1+4+4+varint(s)+s bytes per
    input of script size s + the outputs' serialize sizes + the change
    output of 8+1+2+varint(c)+c bytes when change is requested.  The sum is
    the one Go's [int] additions produce, and it is the plain integer sum
    whenever that fits an [int]. *)
Theorem EstimateSerializeSize_total ss outs c :
  let total :=
    12 + VarIntSerializeSize (uint64 (len ss))
    + VarIntSerializeSize (uint64 (len ss))
    + VarIntSerializeSize (uint64 (len outs + (if c =? 0 then 0 else 1)))
    + Zsum ((fun _ => 32 + 4 + 1 + 4) <$> ss)
    + Zsum ((fun s => 8 + 1 + 4 + 4 + VarIntSerializeSize (uint64 s) + s)
              <$> ss)
    + Zsum (SerializeSize <$> outs)
    + (if c =? 0 then 0
       else 8 + 1 + 2 + VarIntSerializeSize (uint64 c) + c) in
  EstimateSerializeSize SerializeSize ss outs c = wrap total
  /\ (in_range total ->
      EstimateSerializeSize SerializeSize ss outs c = total).
Proof.
  intros total.
  assert (Htotal : specTotal SerializeSize false ss outs c = total).
  { unfold specTotal, total, changeBytes, changeCount.
    rewrite (Zsum_ext (witnessBytes false)
               (fun s => 8 + 1 + 4 + 4 + VarIntSerializeSize (uint64 s) + s))
      by (intros s; unfold witnessBytes; lia).
    destruct (c =? 0); lia. }
  assert (Hwrap : EstimateSerializeSize SerializeSize ss outs c = wrap total).
  { unfold EstimateSerializeSize.
    now rewrite estimateSerializeSizeInternal_total, Htotal. }
  split; [exact Hwrap|].
  intros Hrange. rewrite Hwrap. now apply wrap_small.
Qed.

(** C5: one input of the worst-case P2PKH redeem script size (108 bytes),
    no outputs and no change give an estimate of exactly 182 bytes. *)
Theorem EstimateSerializeSize_baseline :
  RedeemP2PKHSigScriptSize = 108
  /\ EstimateSerializeSize SerializeSize [RedeemP2PKHSigScriptSize] [] 0
     = 182.
Proof. split; vm_compute; reflexivity. Qed.


(** C3: the per-input contribution of the abstract-sizes overload,
    [EstimateInputSize], is one byte short of the prefix plus the witness
    that the concrete estimator counts (the witness has the 1-byte
    SKAValueInLen that [EstimateInputSize] leaves out); at one 108-byte
    input, no outputs and no change the two overloads return 181 and 182. *)
Theorem EstimateInputSize_one_byte_short :
  (forall s, add EstimateInputPrefixSize (EstimateInputWitnessSize s)
             = add (EstimateInputSize s) 1)
  /\ EstimateInputSize 108 = 166
  /\ EstimateInputPrefixSize + EstimateInputWitnessSize 108 = 167
  /\ EstimateSerializeSizeFromScriptSizes [108] [] 0 = 181
  /\ EstimateSerializeSize SerializeSize [108] [] 0 = 182.
Proof.
  split; [|repeat split; vm_compute; reflexivity].
  intros s. unfold EstimateInputPrefixSize, EstimateInputWitnessSize,
    EstimateInputSize. wrap_solve.
Qed.


(** On outputs whose serialize size is the one [EstimateOutputSize] assumes
    and a change script size that is not negative, the concrete estimator
    exceeds the abstract-sizes overload by one byte per input. *)
Lemma overloads_one_byte_per_input ss outs c :
  0 <= c ->
  (forall o, SerializeSize o
             = 8 + 1 + 2 + VarIntSerializeSize (uint64 (len (PkScript o)))
               + len (PkScript o)) ->
  EstimateSerializeSize SerializeSize ss outs c
  = add (EstimateSerializeSizeFromScriptSizes ss
           ((fun o => len (PkScript o)) <$> outs) c)
        (len ss).
Proof.
  intros Hc Hout. unfold EstimateSerializeSize.
  rewrite estimateSerializeSizeInternal_total.
  unfold EstimateSerializeSizeFromScriptSizes, specTotal.
  rewrite (loop_sum EstimateInputSize
             (fun s => witnessBytes false s + 40))
    by (intros s; rewrite wrap_EstimateInputSize; unfold witnessBytes;
        f_equal; lia).
  rewrite (loop_sum EstimateOutputSize
             (fun s => 8 + 1 + 2 + VarIntSerializeSize (uint64 s) + s))
    by (intros s; apply wrap_EstimateOutputSize).
  rewrite (Zsum_shift (witnessBytes false) 40 ss).
  rewrite (Zsum_const (32 + 4 + 1 + 4) ss), <- list_fmap_compose.
  rewrite (Zsum_ext SerializeSize
             ((fun s => 8 + 1 + 2 + VarIntSerializeSize (uint64 s) + s)
              ∘ (fun o => len (PkScript o))))
    by (intros o; apply Hout).
  replace (len ((fun o => len (PkScript o)) <$> outs)) with (len outs)
    by (unfold len; now rewrite length_fmap).
  unfold changeBytes, changeCount, EstimateOutputSize.
  destruct (Z.eqb_spec c 0) as [->|Hne].
  - change (0 <? 0) with false. cbv beta iota.
    rewrite (Z.add_0_r (len outs)). wrap_solve.
  - rewrite (proj2 (Z.ltb_lt 0 c)) by lia. cbv beta iota.
    change (add (len outs) 1) with (wrap (len outs + 1)).
    rewrite uint64_wrap. wrap_solve.
Qed.

End WithTxOut.



(** Counting one more output never shrinks the compact size of the count. *)
Lemma output_count_growth {A} (outs : list A) :
  len outs < MaxInt ->
  0 <= VarIntSerializeSize (uint64 (len outs + 1))
       - VarIntSerializeSize (uint64 (len outs)).
Proof.
  unfold MaxInt. intros Hlen. pose proof (len_nonneg outs).
  rewrite !uint64_small by lia.
  pose proof (VarIntSerializeSize_mono (len outs) (len outs + 1)). lia.
Qed.





End TxSizesFacts.

(** ** Properties of the consolidation address store *)
Module UdbFacts.
Import GoInt GoIntFacts Errors WalletDB Udb.

Lemma len_eqb_20 (h : list byte) : (len h =? 20) = true <-> length h = 20%nat.
Proof. unfold len. rewrite Z.eqb_eq. lia. Qed.

(** Copying 20 bytes into a fresh 20-byte slice yields those bytes. *)
Lemma copy_make_20 (h : list byte) :
  length h = 20%nat -> copy (make 20) h = h.
Proof.
  intros Hlen. unfold copy, make. rewrite length_replicate, Hlen.
  cbn [Nat.min]. rewrite <- Hlen at 1. rewrite firstn_all.
  cbn. apply app_nil_r.
Qed.

(** The three cases of the validation prefix of
    [SetAccountConsolidationAddr]. *)
Lemma Set_invalid dbtx a h :
  a = "" \/ length h <> 20%nat ->
  SetAccountConsolidationAddr dbtx a h
  = Returns (Some (E "udb.SetAccountConsolidationAddr" Invalid), dbtx).
Proof.
  intros Hbad. unfold SetAccountConsolidationAddr.
  destruct (len h =? 20) eqn:Hlen; [|reflexivity]. cbn [negb].
  apply len_eqb_20 in Hlen. destruct Hbad as [->|Hbad]; [|contradiction].
  reflexivity.
Qed.

Lemma Set_valid dbtx a h :
  a <> "" -> length h = 20%nat ->
  SetAccountConsolidationAddr dbtx a h
  = match ReadWriteBucket dbtx accountConsolidationBucketKey with
    | None => Panics
    | Some b =>
        if PutFault dbtx a h
        then Returns (Some (E "udb.SetAccountConsolidationAddr" IO), dbtx)
        else Returns
               (None,
                mkTx (<[accountConsolidationBucketKey := <[a := h]> b]>
                        (Buckets dbtx))
                     (PutFault dbtx) (DeleteFault dbtx))
    end.
Proof.
  intros Ha Hlen. unfold SetAccountConsolidationAddr, Put.
  rewrite (proj2 (len_eqb_20 h) Hlen). cbn [negb].
  rewrite (proj2 (String.eqb_neq a "") Ha).
  destruct (ReadWriteBucket dbtx accountConsolidationBucketKey); [|reflexivity].
  destruct (PutFault dbtx a h); reflexivity.
Qed.

Lemma Clear_valid dbtx a :
  a <> "" ->
  ClearAccountConsolidationAddr dbtx a
  = match ReadWriteBucket dbtx accountConsolidationBucketKey with
    | None => Panics
    | Some b =>
        if DeleteFault dbtx a
        then Returns (Some (E "udb.ClearAccountConsolidationAddr" IO), dbtx)
        else Returns
               (None,
                mkTx (<[accountConsolidationBucketKey := delete a b]>
                        (Buckets dbtx))
                     (PutFault dbtx) (DeleteFault dbtx))
    end.
Proof.
  intros Ha. unfold ClearAccountConsolidationAddr, Delete.
  rewrite (proj2 (String.eqb_neq a "") Ha).
  destruct (ReadWriteBucket dbtx accountConsolidationBucketKey); [|reflexivity].
  destruct (DeleteFault dbtx a); reflexivity.
Qed.

(** What [GetAccountConsolidationAddr] answers for a non-empty name, by the
    state of the store. *)
Lemma Get_valid dbtx a :
  a <> "" ->
  GetAccountConsolidationAddr dbtx a
  = match ReadBucket dbtx accountConsolidationBucketKey with
    | None => (None, None)
    | Some b =>
        match Get b a with
        | None => (None, None)
        | Some v =>
            if decide (length v = 20%nat) then (Some v, None)
            else (None, Some (E "udb.GetAccountConsolidationAddr" IO))
        end
    end.
Proof.
  intros Ha. unfold GetAccountConsolidationAddr.
  rewrite (proj2 (String.eqb_neq a "") Ha).
  destruct (ReadBucket dbtx accountConsolidationBucketKey) as [b|];
    [|reflexivity].
  destruct (Get b a) as [v|]; [|reflexivity].
  destruct (decide (length v = 20%nat)) as [Hlen|Hlen].
  - rewrite (proj2 (len_eqb_20 v) Hlen). cbn [negb].
    now rewrite copy_make_20.
  - destruct (len v =? 20) eqn:Hv; [|reflexivity].
    apply len_eqb_20 in Hv. contradiction.
Qed.

(** C2: for a non-empty account name and a 20-byte hash, when
    [SetAccountConsolidationAddr] returns no error, a following
    [GetAccountConsolidationAddr] on the resulting store returns that hash
    (20 bytes) and no error. *)
Theorem Set_then_Get dbtx a h dbtx' :
  a <> "" ->
  length h = 20%nat ->
  SetAccountConsolidationAddr dbtx a h = Returns (None, dbtx') ->
  GetAccountConsolidationAddr dbtx' a = (Some h, None).
Proof.
  intros Ha Hlen Hset. rewrite (Set_valid dbtx a h Ha Hlen) in Hset.
  destruct (ReadWriteBucket dbtx accountConsolidationBucketKey) as [b|];
    [|discriminate].
  destruct (PutFault dbtx a h); [discriminate|].
  injection Hset as <-.
  rewrite (Get_valid _ a Ha). unfold ReadBucket, Get. cbn [Buckets].
  rewrite lookup_insert_eq, lookup_insert_eq.
  destruct (decide (length h = 20%nat)); [reflexivity|contradiction].
Qed.


(** C8: [SetAccountConsolidationAddr] returns an Invalid error exactly when
    the account name is empty or the hash is not 20 bytes long;
    [GetAccountConsolidationAddr] and [ClearAccountConsolidationAddr]
    return an Invalid error exactly when the account name is empty; and
    whenever one of them returns an Invalid error the store is the one it
    was called with. *)
Theorem Invalid_iff_bad_arguments dbtx a h :
  (returns_error Invalid (SetAccountConsolidationAddr dbtx a h)
   <-> a = "" \/ length h <> 20%nat)
  /\ ((exists op, (GetAccountConsolidationAddr dbtx a).2
                  = Some (E op Invalid))
      <-> a = "")
  /\ (returns_error Invalid (ClearAccountConsolidationAddr dbtx a)
      <-> a = "")
  /\ (forall op dbtx',
      SetAccountConsolidationAddr dbtx a h
      = Returns (Some (E op Invalid), dbtx') -> dbtx' = dbtx)
  /\ (forall op dbtx',
      ClearAccountConsolidationAddr dbtx a
      = Returns (Some (E op Invalid), dbtx') -> dbtx' = dbtx).
Proof.
  assert (Hset : a <> "" -> length h = 20%nat ->
                 forall op dbtx',
                 SetAccountConsolidationAddr dbtx a h
                 <> Returns (Some (E op Invalid), dbtx')).
  { intros Ha Hlen op dbtx'. rewrite (Set_valid dbtx a h Ha Hlen).
    destruct (ReadWriteBucket dbtx accountConsolidationBucketKey);
      [|discriminate].
    destruct (PutFault dbtx a h); discriminate. }
  assert (Hclear : a <> "" ->
                   forall op dbtx',
                   ClearAccountConsolidationAddr dbtx a
                   <> Returns (Some (E op Invalid), dbtx')).
  { intros Ha op dbtx'. rewrite (Clear_valid dbtx a Ha).
    destruct (ReadWriteBucket dbtx accountConsolidationBucketKey);
      [|discriminate].
    destruct (DeleteFault dbtx a); discriminate. }
  repeat split.
  - intros (op & dbtx' & Hret).
    destruct (decide (a = "")) as [|Ha]; [now left|].
    destruct (decide (length h = 20%nat)) as [Hlen|]; [|now right].
    exfalso. exact (Hset Ha Hlen op dbtx' Hret).
  - intros Hbad. rewrite (Set_invalid dbtx a h Hbad).
    eexists _, _. reflexivity.
  - intros [op Hop]. destruct (decide (a = "")) as [|Ha]; [assumption|].
    rewrite (Get_valid dbtx a Ha) in Hop.
    destruct (ReadBucket dbtx accountConsolidationBucketKey) as [b|];
      [|discriminate].
    destruct (Get b a) as [v|]; [|discriminate].
    destruct (decide (length v = 20%nat)); discriminate.
  - intros ->. eexists. reflexivity.
  - intros (op & dbtx' & Hret).
    destruct (decide (a = "")) as [|Ha]; [assumption|].
    exfalso. exact (Hclear Ha op dbtx' Hret).
  - intros ->. eexists _, _. reflexivity.
  - intros op dbtx' Hret.
    destruct (decide (a = "")) as [Ha|Ha];
      [|destruct (decide (length h = 20%nat)) as [Hlen|Hlen]].
    + rewrite (Set_invalid dbtx a h (or_introl Ha)) in Hret. congruence.
    + exfalso. exact (Hset Ha Hlen op dbtx' Hret).
    + rewrite (Set_invalid dbtx a h (or_intror Hlen)) in Hret. congruence.
  - intros op dbtx' Hret. destruct (decide (a = "")) as [->|Ha].
    + cbn in Hret. congruence.
    + exfalso. exact (Hclear Ha op dbtx' Hret).
Qed.

(** C2 on a store with an empty consolidation bucket, account "default"
    and the hash of twenty 0x01 bytes. *)
Lemma Set_then_Get_witness :
  "default" <> ""
  /\ length (replicate 20 x01) = 20%nat
  /\ SetAccountConsolidationAddr (storeOf ∅) "default" (replicate 20 x01)
     = Returns (None,
                mkTx (<[accountConsolidationBucketKey :=
                          <["default" := replicate 20 x01]> ∅]>
                        (Buckets (storeOf ∅)))
                     (PutFault (storeOf ∅)) (DeleteFault (storeOf ∅)))
  /\ GetAccountConsolidationAddr
       (mkTx (<[accountConsolidationBucketKey :=
                  <["default" := replicate 20 x01]> ∅]>
                (Buckets (storeOf ∅)))
             (PutFault (storeOf ∅)) (DeleteFault (storeOf ∅)))
       "default"
     = (Some (replicate 20 x01), None).
Proof.
  assert (Hname : "default" <> "") by discriminate.
  assert (Hlen : length (replicate 20 x01) = 20%nat) by reflexivity.
  assert (Hset :
    SetAccountConsolidationAddr (storeOf ∅) "default" (replicate 20 x01)
    = Returns (None,
               mkTx (<[accountConsolidationBucketKey :=
                         <["default" := replicate 20 x01]> ∅]>
                       (Buckets (storeOf ∅)))
                    (PutFault (storeOf ∅)) (DeleteFault (storeOf ∅)))).
  { rewrite (Set_valid _ _ _ Hname Hlen). unfold ReadWriteBucket, storeOf.
    cbn [Buckets PutFault]. now rewrite lookup_singleton_eq. }
  split; [exact Hname|]. split; [exact Hlen|]. split; [exact Hset|].
  exact (Set_then_Get _ _ _ _ Hname Hlen Hset).
Defined.


End UdbFacts.

(** ** Properties of the SSFee shape recogniser *)
Module SSFeeFacts.
Import GoInt Wire SSFee.

(** A script that parses as a marker carries the bytes of its tag at
    positions 2 and 3. *)
Lemma parseMarkerScript_tag script m :
  parseMarkerScript script = Some m ->
  take 2 (drop 2 script) = tagBytes (tag m).
Proof.
  unfold parseMarkerScript.
  destruct script as [|op [|push [|t1 [|t2 [|h0 [|h1 [|h2 [|h3 [|]]]]]]]]];
    try discriminate.
  destruct (Byte.eqb op OP_RETURN && Byte.eqb push OP_DATA_6);
    [|discriminate].
  destruct (Byte.eqb t1 x4d) eqn:H1, (Byte.eqb t2 x46) eqn:H2;
    cbn [andb]; try discriminate.
  all: try (destruct (Byte.eqb t1 x53) eqn:H3; cbn [andb]; try discriminate).
  all: intros [= <-]; cbn [tag tagBytes take drop].
  all: repeat match goal with
         | H : Byte.eqb _ _ = true |- _ => apply Byte.byte_dec_bl in H
         end; subst; reflexivity.
Qed.

(** The recogniser answers with the marker of the final output. *)
Lemma classifySSFee_tag tx m :
  classifySSFee tx = Some m -> markerTagBytes tx = Some (tagBytes (tag m)).
Proof.
  unfold classifySSFee, markerTagBytes.
  destruct (negb (3 <=? MsgVersion tx)); [discriminate|].
  destruct (MsgTxIn tx) as [|txIn [|]]; try discriminate.
  destruct (negb (inputShapeOk txIn)); [discriminate|].
  destruct (splitFinal (MsgTxOut tx)) as [[rewards final]|]; [|discriminate].
  destruct (negb (Value final =? 0)); [discriminate|].
  destruct (parseMarkerScript (PkScript final)) as [marker|] eqn:Hparse;
    [|discriminate].
  destruct ((1 <=? len rewards) && (len rewards <=? 4)
            && sameCoinType rewards); [|discriminate].
  intros [= <-]. now rewrite (parseMarkerScript_tag _ _ Hparse).
Qed.

Lemma version_gate tx : MsgVersion tx < 3 -> classifySSFee tx = None.
Proof.
  intros Hv. unfold classifySSFee.
  destruct (Z.leb_spec 3 (MsgVersion tx)); [lia|]. reflexivity.
Qed.

(** C4: a transaction whose version is 2 is not classified as SSFee,
    whatever its input, marker output and reward outputs are. *)
Theorem version_2_is_not_SSFee tx :
  MsgVersion tx = 2 ->
  classifySSFee tx = None /\ isSSFeeTx tx = false /\ getSSFeeType tx = "".
Proof.
  intros Hv. unfold isSSFeeTx, getSSFeeType.
  rewrite (version_gate tx) by lia. repeat split.
Qed.

(** C4 on the transaction of the tests: three reward outputs of coin type 1,
    null input, "SF" marker.  With version 3 it is an SSFee, with version 2
    it is not. *)
Lemma version_2_is_not_SSFee_witness :
  MsgVersion (withVersion 2 (createMockSSFeeTx 1 3 1000 SF)) = 2
  /\ isSSFeeTx (createMockSSFeeTx 1 3 1000 SF) = true
  /\ isSSFeeTx (withVersion 2 (createMockSSFeeTx 1 3 1000 SF)) = false.
Proof.
  split; [reflexivity|]. split; [vm_compute; reflexivity|].
  exact (proj1 (proj2 (version_2_is_not_SSFee
           (withVersion 2 (createMockSSFeeTx 1 3 1000 SF)) eq_refl))).
Defined.

(** C9: [isSSFeeMinerTx] is true exactly for the transactions that are
    classified as SSFee and carry the tag "MF" in their marker; an SSFee
    with the tag "SF" and a transaction that is not an SSFee give false. *)
Theorem isSSFeeMinerTx_iff tx :
  (isSSFeeMinerTx tx = true
   <-> isSSFeeTx tx = true /\ markerTagBytes tx = Some [x4d; x46])
  /\ (isSSFeeTx tx = true /\ markerTagBytes tx = Some [x53; x46] ->
      isSSFeeMinerTx tx = false)
  /\ (isSSFeeTx tx = false -> isSSFeeMinerTx tx = false).
Proof.
  unfold isSSFeeMinerTx, isSSFeeTx, getSSFeeType.
  destruct (classifySSFee tx) as [[[|] height]|] eqn:Hc.
  - apply classifySSFee_tag in Hc. cbn [tag tagBytes] in Hc. rewrite Hc.
    split; [split; [intros _; split; reflexivity | intros _; reflexivity]|].
    split; [intros [_ [=]] | intros [=]].
  - apply classifySSFee_tag in Hc. cbn [tag tagBytes] in Hc. rewrite Hc.
    change (String.eqb "SF" "MF") with false.
    split; [split; [intros [=] | intros [_ [=]]]|].
    split; [intros _; reflexivity | intros [=]].
  - change (String.eqb "" "MF") with false.
    split; [split; [intros [=] | intros [[=] _]]|].
    split; [intros [[=] _] | intros _; reflexivity].
Qed.

(** C9 on the transactions of the tests. *)
Lemma isSSFeeMinerTx_iff_witness :
  isSSFeeMinerTx (createMockSSFeeTx 1 3 1000 MF) = true
  /\ isSSFeeMinerTx (createMockSSFeeTx 1 3 1000 SF) = false.
Proof.
  split.
  - apply (proj1 (isSSFeeMinerTx_iff (createMockSSFeeTx 1 3 1000 MF))).
    split; vm_compute; reflexivity.
  - apply (proj1 (proj2 (isSSFeeMinerTx_iff (createMockSSFeeTx 1 3 1000 SF)))).
    split; vm_compute; reflexivity.
Defined.

End SSFeeFacts.

(** ** Further properties of the size estimators *)
Module TxSizesProps.
Import GoInt GoIntFacts Wire TxSizes TxSizesFacts.

Lemma Zsum_Permutation (l l' : list Z) : l ≡ₚ l' -> Zsum l = Zsum l'.
Proof.
  unfold Zsum. induction 1; cbn [foldr]; lia.
Qed.

Lemma len_Permutation {A} (l l' : list A) : l ≡ₚ l' -> len l = len l'.
Proof. intros H. unfold len. now rewrite (Permutation_length H). Qed.

(** X1: the abstract-sizes overload returns, in [int] arithmetic, 12 bytes plus
    twice the compact size of the input count, the compact size of the
    output count (one more with change), per input 57 bytes plus the script
    and its compact size, per output 11 bytes plus the script and its
    compact size, and the same for the change output when the change script
    size is strictly positive. *)
Theorem FromScriptSizes_total ins osz c :
  let total :=
    12 + 2 * VarIntSerializeSize (uint64 (len ins))
    + VarIntSerializeSize (uint64 (len osz + (if 0 <? c then 1 else 0)))
    + Zsum ((fun s => 32 + 4 + 1 + 8 + 4 + 4
                      + VarIntSerializeSize (uint64 s) + s + 4) <$> ins)
    + Zsum ((fun s => 8 + 1 + 2 + VarIntSerializeSize (uint64 s) + s)
              <$> osz)
    + (if 0 <? c then 8 + 1 + 2 + VarIntSerializeSize (uint64 c) + c
       else 0) in
  EstimateSerializeSizeFromScriptSizes ins osz c = wrap total
  /\ (in_range total ->
      EstimateSerializeSizeFromScriptSizes ins osz c = total).
Proof.
  intros total.
  assert (Hwrap : EstimateSerializeSizeFromScriptSizes ins osz c
                  = wrap total).
  { unfold EstimateSerializeSizeFromScriptSizes, total.
    rewrite (loop_sum EstimateInputSize
               (fun s => 32 + 4 + 1 + 8 + 4 + 4
                         + VarIntSerializeSize (uint64 s) + s + 4))
      by (intros s; apply wrap_EstimateInputSize).
    rewrite (loop_sum EstimateOutputSize
               (fun s => 8 + 1 + 2 + VarIntSerializeSize (uint64 s) + s))
      by (intros s; apply wrap_EstimateOutputSize).
    unfold EstimateOutputSize. destruct (0 <? c); cbv beta iota.
    - change (add (len osz) 1) with (wrap (len osz + 1)).
      rewrite uint64_wrap. wrap_solve.
    - rewrite (Z.add_0_r (len osz)). wrap_solve. }
  split; [exact Hwrap|].
  intros Hrange. rewrite Hwrap. now apply wrap_small.
Qed.

Section WithTxOut.
Variable SerializeSize : TxOut -> Z.

(** X2: the estimate does not depend on the order of the inputs or of the
    outputs. *)
Theorem estimate_order_independent ss ss' outs outs' c (isSKA : bool) :
  ss ≡ₚ ss' ->
  outs ≡ₚ outs' ->
  estimateSerializeSizeInternal SerializeSize ss outs c isSKA
  = estimateSerializeSizeInternal SerializeSize ss' outs' c isSKA.
Proof.
  intros Hss Houts. rewrite !estimateSerializeSizeInternal_total.
  unfold specTotal.
  rewrite (len_Permutation _ _ Hss), (len_Permutation _ _ Houts).
  rewrite (Zsum_Permutation _ _
             (fmap_Permutation (fun _ : Z => 32 + 4 + 1 + 4) _ _ Hss)).
  rewrite (Zsum_Permutation _ _
             (fmap_Permutation (witnessBytes isSKA) _ _ Hss)).
  rewrite (Zsum_Permutation _ _
             (fmap_Permutation SerializeSize _ _ Houts)).
  reflexivity.
Qed.

(** The increment of the estimate when change is requested. *)
Lemma change_increment ss outs c (isSKA : bool) :
  0 < c ->
  len outs < MaxInt ->
  let increment :=
    (if isSKA then 1 + 1 + 16 + 2 else 8 + 1 + 2)
    + VarIntSerializeSize (uint64 c) + c
    + (VarIntSerializeSize (uint64 (len outs + 1))
       - VarIntSerializeSize (uint64 (len outs))) in
  estimateSerializeSizeInternal SerializeSize ss outs c isSKA
  = add (estimateSerializeSizeInternal SerializeSize ss outs 0 isSKA)
        increment
  /\ 12 + c <= increment
  /\ (in_range (estimateSerializeSizeInternal SerializeSize ss outs 0 isSKA
                + increment) ->
      estimateSerializeSizeInternal SerializeSize ss outs 0 isSKA + 12 + c
      <= estimateSerializeSizeInternal SerializeSize ss outs c isSKA).
Proof.
  intros Hc Hlen increment.
  assert (Hincr : 12 + c <= increment).
  { unfold increment. pose proof (output_count_growth outs Hlen).
    pose proof (VarIntSerializeSize_bounds (uint64 c)).
    destruct isSKA; lia. }
  assert (Hadd :
    estimateSerializeSizeInternal SerializeSize ss outs c isSKA
    = add (estimateSerializeSizeInternal SerializeSize ss outs 0 isSKA)
          increment).
  { rewrite !estimateSerializeSizeInternal_total.
    unfold specTotal, changeBytes, changeCount, increment.
    destruct (Z.eqb_spec c 0) as [->|_]; [lia|].
    change (0 =? 0) with true. cbv beta iota.
    rewrite (Z.add_0_r (len outs)). destruct isSKA; wrap_solve. }
  split; [exact Hadd|]. split; [exact Hincr|].
  intros Hrange. rewrite Hadd. unfold add.
  rewrite (wrap_small _ Hrange). lia.
Qed.

(** X3: requesting change (a nonzero change script size) adds to the estimate
    of the same call without change the bytes of the change output and the
    growth of the output-count varint; for a strictly positive size that
    increment is at least 12 + c bytes, so, short of overflow, the estimate
    with change is strictly above the one without. *)
Theorem change_output_increment ss outs c (isSKA : bool) :
  0 < c ->
  len outs < MaxInt ->
  let increment :=
    (if isSKA then 1 + 1 + 16 + 2 else 8 + 1 + 2)
    + VarIntSerializeSize (uint64 c) + c
    + (VarIntSerializeSize (uint64 (len outs + 1))
       - VarIntSerializeSize (uint64 (len outs))) in
  estimateSerializeSizeInternal SerializeSize ss outs c isSKA
  = add (estimateSerializeSizeInternal SerializeSize ss outs 0 isSKA)
        increment
  /\ 12 + c <= increment
  /\ (in_range (estimateSerializeSizeInternal SerializeSize ss outs 0 isSKA
                + increment) ->
      estimateSerializeSizeInternal SerializeSize ss outs 0 isSKA + 12 + c
      <= estimateSerializeSizeInternal SerializeSize ss outs c isSKA).
Proof. exact (change_increment ss outs c isSKA). Qed.

Lemma witnessBytes_mono (isSKA : bool) s s' :
  0 <= s <= s' -> s' <= MaxInt ->
  witnessBytes isSKA s <= witnessBytes isSKA s'.
Proof.
  unfold MaxInt. intros Hs Hmax. unfold witnessBytes.
  rewrite !uint64_small by lia.
  pose proof (VarIntSerializeSize_mono s s'). lia.
Qed.

(** X4: never undershooting: when every script size is replaced by a larger
    one (sizes between 0 and the largest [int]), the estimate does not
    decrease, provided both totals fit an [int]. *)
Theorem estimate_monotone_in_script_sizes ss ss' outs c (isSKA : bool) :
  Forall2 (fun s s' => 0 <= s <= s' /\ s' <= MaxInt) ss ss' ->
  in_range (specTotal SerializeSize isSKA ss outs c) ->
  in_range (specTotal SerializeSize isSKA ss' outs c) ->
  estimateSerializeSizeInternal SerializeSize ss outs c isSKA
  <= estimateSerializeSizeInternal SerializeSize ss' outs c isSKA.
Proof.
  intros Hall Hr Hr'. rewrite !estimateSerializeSizeInternal_total.
  rewrite (wrap_small _ Hr), (wrap_small _ Hr').
  unfold specTotal.
  assert (Hlen : len ss = len ss').
  { unfold len. now rewrite (Forall2_length _ _ _ Hall). }
  rewrite !Zsum_const, Hlen.
  assert (Hsum : Zsum (witnessBytes isSKA <$> ss)
                 <= Zsum (witnessBytes isSKA <$> ss')).
  { clear Hr Hr' Hlen. unfold Zsum.
    induction Hall as [|s s' l l' [Hs Hmax] _ IH]; cbn [fmap list_fmap foldr].
    - lia.
    - pose proof (witnessBytes_mono isSKA s s' Hs Hmax).
      cbn [fmap list_fmap] in IH. lia. }
  lia.
Qed.

(** X5: on outputs whose serialize size is 8+1+2+varint(len(script))+len(script)
    and a change script size that is not negative, [EstimateSerializeSize]
    returns what [EstimateSerializeSizeFromScriptSizes] returns for the
    same input sizes and the outputs' script lengths, plus one byte per
    input. *)
Theorem concrete_estimate_exceeds_abstract ss outs c :
  0 <= c ->
  (forall o, SerializeSize o
             = 8 + 1 + 2 + VarIntSerializeSize (uint64 (len (PkScript o)))
               + len (PkScript o)) ->
  EstimateSerializeSize SerializeSize ss outs c
  = add (EstimateSerializeSizeFromScriptSizes ss
           ((fun o => len (PkScript o)) <$> outs) c)
        (len ss).
Proof. exact (overloads_one_byte_per_input SerializeSize ss outs c). Qed.

End WithTxOut.

(** Shuffling two inputs and two outputs. *)
Lemma estimate_order_independent_witness :
  [108; 25] ≡ₚ [25; 108]
  /\ [testOutput 25; testOutput 23] ≡ₚ [testOutput 23; testOutput 25]
  /\ estimateSerializeSizeInternal primaryOutputSerializeSize
       [108; 25] [testOutput 25; testOutput 23] 25 false
     = estimateSerializeSizeInternal primaryOutputSerializeSize
         [25; 108] [testOutput 23; testOutput 25] 25 false.
Proof.
  assert (H1 : [108; 25] ≡ₚ [25; 108]) by apply perm_swap.
  assert (H2 : [testOutput 25; testOutput 23]
               ≡ₚ [testOutput 23; testOutput 25]) by apply perm_swap.
  split; [exact H1|]. split; [exact H2|].
  exact (estimate_order_independent primaryOutputSerializeSize
           _ _ _ _ 25 false H1 H2).
Defined.

(** A P2PKH change script on the transaction of the size test: 37 more
    bytes. *)
Lemma change_output_increment_witness :
  0 < 25
  /\ len [testOutput 25] < MaxInt
  /\ estimateSerializeSizeInternal primaryOutputSerializeSize
       [108] [testOutput 25] 25 false
     = add (estimateSerializeSizeInternal primaryOutputSerializeSize
              [108] [testOutput 25] 0 false)
           (8 + 1 + 2 + VarIntSerializeSize (uint64 25) + 25
            + (VarIntSerializeSize (uint64 (len [testOutput 25] + 1))
               - VarIntSerializeSize (uint64 (len [testOutput 25])))).
Proof.
  assert (Hc : 0 < 25) by lia.
  assert (Hlen : len [testOutput 25] < MaxInt) by (vm_compute; reflexivity).
  split; [exact Hc|]. split; [exact Hlen|].
  exact (proj1 (change_output_increment primaryOutputSerializeSize
                  [108] [testOutput 25] 25 false Hc Hlen)).
Defined.

(** The worst-case P2PKH script size against a 73-byte signature script. *)
Lemma estimate_monotone_in_script_sizes_witness :
  Forall2 (fun s s' => 0 <= s <= s' /\ s' <= MaxInt) [73] [108]
  /\ estimateSerializeSizeInternal primaryOutputSerializeSize
       [73] [testOutput 25] 0 false
     <= estimateSerializeSizeInternal primaryOutputSerializeSize
          [108] [testOutput 25] 0 false.
Proof.
  assert (H : Forall2 (fun s s' => 0 <= s <= s' /\ s' <= MaxInt) [73] [108]).
  { repeat constructor; unfold MaxInt; lia. }
  split; [exact H|].
  apply (estimate_monotone_in_script_sizes primaryOutputSerializeSize
           [73] [108] [testOutput 25] 0 false H);
    vm_compute; split; discriminate.
Defined.

(** One input and one P2PKH output, no change: 218 bytes by the abstract
    overload, 219 by the concrete one. *)
Lemma concrete_estimate_exceeds_abstract_witness :
  0 <= 0
  /\ EstimateSerializeSizeFromScriptSizes [108]
       ((fun o => len (PkScript o)) <$> [testOutput 25]) 0 = 218
  /\ EstimateSerializeSize
       (fun o => 8 + 1 + 2
                 + VarIntSerializeSize (uint64 (len (PkScript o)))
                 + len (PkScript o))
       [108] [testOutput 25] 0
     = add (EstimateSerializeSizeFromScriptSizes [108]
              ((fun o => len (PkScript o)) <$> [testOutput 25]) 0)
           (len [108]).
Proof.
  assert (H0 : 0 <= 0) by lia.
  split; [exact H0|]. split; [vm_compute; reflexivity|].
  exact (concrete_estimate_exceeds_abstract
           (fun o => 8 + 1 + 2
                     + VarIntSerializeSize (uint64 (len (PkScript o)))
                     + len (PkScript o))
           [108] [testOutput 25] 0 H0 (fun o => eq_refl)).
Defined.

End TxSizesProps.

(** ** Further properties of the consolidation address store *)
Module UdbProps.
Import GoInt GoIntFacts Errors WalletDB Udb UdbInvariant UdbFacts.

(** X6: after a [ClearAccountConsolidationAddr] that returned no error,
    [GetAccountConsolidationAddr] for the same account answers "no
    override": nil and no error. *)
Theorem Clear_then_Get dbtx a dbtx' :
  a <> "" ->
  ClearAccountConsolidationAddr dbtx a = Returns (None, dbtx') ->
  GetAccountConsolidationAddr dbtx' a = (None, None).
Proof.
  intros Ha Hclear. rewrite (Clear_valid dbtx a Ha) in Hclear.
  destruct (ReadWriteBucket dbtx accountConsolidationBucketKey) as [b|];
    [|discriminate].
  destruct (DeleteFault dbtx a); [discriminate|].
  injection Hclear as <-.
  rewrite (Get_valid _ a Ha). unfold ReadBucket, Get. cbn [Buckets].
  now rewrite lookup_insert_eq, lookup_delete_eq.
Qed.

Lemma Get_after_write dbtx (records : gmap string (list byte)) b0 bkt a :
  a <> b0 ->
  ReadBucket dbtx accountConsolidationBucketKey = Some bkt ->
  records !! b0 = bkt !! b0 ->
  GetAccountConsolidationAddr
    (mkTx (<[accountConsolidationBucketKey := records]> (Buckets dbtx))
          (PutFault dbtx) (DeleteFault dbtx)) b0
  = GetAccountConsolidationAddr dbtx b0.
Proof.
  intros Hne Hbkt Hsame. unfold GetAccountConsolidationAddr.
  destruct (String.eqb b0 ""); [reflexivity|].
  rewrite Hbkt. unfold ReadBucket, Get. cbn [Buckets].
  now rewrite lookup_insert_eq, Hsame.
Qed.

(** X7: setting or clearing the address of one account leaves what
    [GetAccountConsolidationAddr] answers for every other account as it
    was, whatever the call returned. *)
Theorem other_accounts_untouched dbtx a b0 h :
  a <> b0 ->
  (forall e dbtx',
     SetAccountConsolidationAddr dbtx a h = Returns (e, dbtx') ->
     GetAccountConsolidationAddr dbtx' b0
     = GetAccountConsolidationAddr dbtx b0)
  /\ (forall e dbtx',
        ClearAccountConsolidationAddr dbtx a = Returns (e, dbtx') ->
        GetAccountConsolidationAddr dbtx' b0
        = GetAccountConsolidationAddr dbtx b0).
Proof.
  intros Hne. split; intros e dbtx' Hret.
  - destruct (decide (a = "")) as [Ha|Ha];
      [|destruct (decide (length h = 20%nat)) as [Hlen|Hlen]].
    + rewrite (Set_invalid dbtx a h (or_introl Ha)) in Hret. congruence.
    + rewrite (Set_valid dbtx a h Ha Hlen) in Hret.
      destruct (ReadWriteBucket dbtx accountConsolidationBucketKey)
        as [bkt|] eqn:Hbkt; [|discriminate].
      destruct (PutFault dbtx a h); [congruence|].
      injection Hret as _ <-.
      apply (Get_after_write dbtx _ b0 bkt a Hne Hbkt).
      now apply lookup_insert_ne.
    + rewrite (Set_invalid dbtx a h (or_intror Hlen)) in Hret. congruence.
  - destruct (decide (a = "")) as [->|Ha].
    + cbn in Hret. congruence.
    + rewrite (Clear_valid dbtx a Ha) in Hret.
      destruct (ReadWriteBucket dbtx accountConsolidationBucketKey)
        as [bkt|] eqn:Hbkt; [|discriminate].
      destruct (DeleteFault dbtx a); [congruence|].
      injection Hret as _ <-.
      apply (Get_after_write dbtx _ b0 bkt a Hne Hbkt).
      now apply lookup_delete_ne.
Qed.

(** X8: on a store whose consolidation bucket does not exist yet, the lookup
    answers "no override", whereas setting or clearing an address with
    valid arguments dereferences the nil bucket and panics instead of
    returning an error. *)
Theorem missing_bucket dbtx a h :
  a <> "" ->
  length h = 20%nat ->
  ReadWriteBucket dbtx accountConsolidationBucketKey = None ->
  GetAccountConsolidationAddr dbtx a = (None, None)
  /\ SetAccountConsolidationAddr dbtx a h = Panics
  /\ ClearAccountConsolidationAddr dbtx a = Panics.
Proof.
  intros Ha Hlen Hnone.
  rewrite (Get_valid dbtx a Ha), (Set_valid dbtx a h Ha Hlen),
    (Clear_valid dbtx a Ha).
  unfold ReadBucket. unfold ReadWriteBucket in *. rewrite Hnone.
  split; [reflexivity|]. split; reflexivity.
Qed.

(** X9: whatever hash [GetAccountConsolidationAddr] returns is the record
    stored for that account, is 20 bytes long, and comes with no error. *)
Theorem Get_returns_stored_hash dbtx a v e :
  GetAccountConsolidationAddr dbtx a = (Some v, e) ->
  e = None
  /\ length v = 20%nat
  /\ a <> ""
  /\ exists b,
       ReadBucket dbtx accountConsolidationBucketKey = Some b
       /\ Get b a = Some v.
Proof.
  intros Hget. destruct (decide (a = "")) as [->|Ha]; [discriminate|].
  rewrite (Get_valid dbtx a Ha) in Hget.
  destruct (ReadBucket dbtx accountConsolidationBucketKey) as [b|];
    [|discriminate].
  destruct (Get b a) as [w|] eqn:Hw; [|discriminate].
  destruct (decide (length w = 20%nat)) as [Hlen|]; [|discriminate].
  injection Hget as <- <-. repeat split; try assumption.
  exists b. auto.
Qed.

(** X10: the store invariant "every record is 20 bytes long" is kept by every
    returning call of [SetAccountConsolidationAddr] and
    [ClearAccountConsolidationAddr], and on a store that satisfies it
    [GetAccountConsolidationAddr] never fails with an IO error. *)
Theorem records_stay_well_formed dbtx a h :
  recordsWellFormed dbtx ->
  (forall e dbtx',
     SetAccountConsolidationAddr dbtx a h = Returns (e, dbtx') ->
     recordsWellFormed dbtx')
  /\ (forall e dbtx',
        ClearAccountConsolidationAddr dbtx a = Returns (e, dbtx') ->
        recordsWellFormed dbtx')
  /\ (forall a' op,
        (GetAccountConsolidationAddr dbtx a').2 <> Some (E op IO)).
Proof.
  intros Hwf. split; [|split].
  - intros e dbtx' Hret.
    destruct (decide (a = "")) as [Ha|Ha];
      [|destruct (decide (length h = 20%nat)) as [Hlen|Hlen]].
    + rewrite (Set_invalid dbtx a h (or_introl Ha)) in Hret.
      injection Hret as _ <-. exact Hwf.
    + rewrite (Set_valid dbtx a h Ha Hlen) in Hret.
      destruct (ReadWriteBucket dbtx accountConsolidationBucketKey)
        as [bkt|] eqn:Hbkt; [|discriminate].
      destruct (PutFault dbtx a h);
        [injection Hret as _ <-; exact Hwf|].
      injection Hret as _ <-.
      intros b a' v. unfold ReadBucket, Get. cbn [Buckets].
      rewrite lookup_insert_eq. intros [= <-].
      destruct (decide (a = a')) as [->|Hne].
      * rewrite lookup_insert_eq. congruence.
      * rewrite lookup_insert_ne by assumption. apply (Hwf bkt a' v Hbkt).
    + rewrite (Set_invalid dbtx a h (or_intror Hlen)) in Hret.
      injection Hret as _ <-. exact Hwf.
  - intros e dbtx' Hret. destruct (decide (a = "")) as [->|Ha].
    + cbn in Hret.
      injection Hret as _ <-. exact Hwf.
    + rewrite (Clear_valid dbtx a Ha) in Hret.
      destruct (ReadWriteBucket dbtx accountConsolidationBucketKey)
        as [bkt|] eqn:Hbkt; [|discriminate].
      destruct (DeleteFault dbtx a);
        [injection Hret as _ <-; exact Hwf|].
      injection Hret as _ <-.
      intros b a' v. unfold ReadBucket, Get. cbn [Buckets].
      rewrite lookup_insert_eq. intros [= <-].
      destruct (decide (a = a')) as [->|Hne].
      * now rewrite lookup_delete_eq.
      * rewrite lookup_delete_ne by assumption. apply (Hwf bkt a' v Hbkt).
  - intros a' op. destruct (decide (a' = "")) as [->|Ha']; [discriminate|].
    rewrite (Get_valid dbtx a' Ha').
    destruct (ReadBucket dbtx accountConsolidationBucketKey) as [b|] eqn:Hb;
      [|discriminate].
    destruct (Get b a') as [v|] eqn:Hv; [|discriminate].
    destruct (decide (length v = 20%nat)) as [|Hlen]; [discriminate|].
    exfalso. exact (Hlen (Hwf b a' v Hb Hv)).
Qed.

(** Clearing "default" on a store that holds its 20-byte record. *)
Lemma Clear_then_Get_witness :
  "default" <> ""
  /\ ClearAccountConsolidationAddr
       (storeOf {["default" := replicate 20 x01]}) "default"
     = Returns (None,
                mkTx (<[accountConsolidationBucketKey :=
                          delete "default"
                            {["default" := replicate 20 x01]}]>
                        (Buckets (storeOf {["default" := replicate 20 x01]})))
                     (fun _ _ => false) (fun _ => false))
  /\ GetAccountConsolidationAddr
       (mkTx (<[accountConsolidationBucketKey :=
                  delete "default" {["default" := replicate 20 x01]}]>
                (Buckets (storeOf {["default" := replicate 20 x01]})))
             (fun _ _ => false) (fun _ => false))
       "default"
     = (None, None).
Proof.
  assert (Hname : "default" <> "") by discriminate.
  assert (Hclear :
    ClearAccountConsolidationAddr
      (storeOf {["default" := replicate 20 x01]}) "default"
    = Returns (None,
               mkTx (<[accountConsolidationBucketKey :=
                         delete "default"
                           {["default" := replicate 20 x01]}]>
                       (Buckets (storeOf {["default" := replicate 20 x01]})))
                    (fun _ _ => false) (fun _ => false))).
  { rewrite (Clear_valid _ _ Hname). unfold ReadWriteBucket, storeOf.
    cbn [Buckets DeleteFault PutFault]. now rewrite lookup_singleton_eq. }
  split; [exact Hname|]. split; [exact Hclear|].
  exact (Clear_then_Get _ _ _ Hname Hclear).
Defined.

(** Setting "default" does not disturb "savings". *)
Lemma other_accounts_untouched_witness :
  "default" <> "savings"
  /\ forall e dbtx',
       SetAccountConsolidationAddr
         (storeOf {["savings" := replicate 20 x02]}) "default"
         (replicate 20 x01) = Returns (e, dbtx') ->
       GetAccountConsolidationAddr dbtx' "savings"
       = GetAccountConsolidationAddr
           (storeOf {["savings" := replicate 20 x02]}) "savings".
Proof.
  assert (Hne : "default" <> "savings") by discriminate.
  split; [exact Hne|].
  exact (proj1 (other_accounts_untouched
                  (storeOf {["savings" := replicate 20 x02]})
                  "default" "savings" (replicate 20 x01) Hne)).
Defined.

(** A store with no bucket at all. *)
Lemma missing_bucket_witness :
  "default" <> ""
  /\ length (replicate 20 x01) = 20%nat
  /\ ReadWriteBucket (mkTx ∅ (fun _ _ => false) (fun _ => false))
       accountConsolidationBucketKey = None
  /\ SetAccountConsolidationAddr
       (mkTx ∅ (fun _ _ => false) (fun _ => false)) "default"
       (replicate 20 x01) = Panics.
Proof.
  assert (Hname : "default" <> "") by discriminate.
  assert (Hlen : length (replicate 20 x01) = 20%nat) by reflexivity.
  assert (Hnone : ReadWriteBucket (mkTx ∅ (fun _ _ => false) (fun _ => false))
                    accountConsolidationBucketKey = None) by reflexivity.
  split; [exact Hname|]. split; [exact Hlen|]. split; [exact Hnone|].
  exact (proj1 (proj2 (missing_bucket _ _ _ Hname Hlen Hnone))).
Defined.

(** The record of "default" read back. *)
Lemma Get_returns_stored_hash_witness :
  GetAccountConsolidationAddr
    (storeOf {["default" := replicate 20 x01]}) "default"
  = (Some (replicate 20 x01), None)
  /\ length (replicate 20 x01) = 20%nat.
Proof.
  assert (Hget :
    GetAccountConsolidationAddr
      (storeOf {["default" := replicate 20 x01]}) "default"
    = (Some (replicate 20 x01), None)).
  { rewrite Get_valid by discriminate. unfold ReadBucket, Get, storeOf.
    cbn [Buckets]. now rewrite !lookup_singleton_eq. }
  split; [exact Hget|].
  exact (proj1 (proj2 (Get_returns_stored_hash _ _ _ _ Hget))).
Defined.

(** The empty consolidation bucket satisfies the invariant, and so does the
    store after a first address is set. *)
Lemma records_stay_well_formed_witness :
  recordsWellFormed (storeOf ∅)
  /\ forall e dbtx',
       SetAccountConsolidationAddr (storeOf ∅) "default" (replicate 20 x01)
       = Returns (e, dbtx') ->
       recordsWellFormed dbtx'.
Proof.
  assert (Hwf : recordsWellFormed (storeOf ∅)).
  { intros b a v. unfold ReadBucket, Get, storeOf. cbn [Buckets].
    rewrite lookup_singleton_eq. intros [= <-]. now rewrite lookup_empty. }
  split; [exact Hwf|].
  exact (proj1 (records_stay_well_formed (storeOf ∅) "default"
                  (replicate 20 x01) Hwf)).
Defined.

End UdbProps.

(** ** Properties of transaction authoring *)
Module TxAuthorFacts.
Import GoInt GoIntFacts Errors TxAuthor.

Lemma sub_small a b : in_range (a - b) -> sub a b = a - b.
Proof. apply wrap_small. Qed.

Lemma add_small a b : in_range (a + b) -> add a b = a + b.
Proof. apply wrap_small. Qed.

Lemma sumOutputValues_snoc outputs o :
  sumOutputValues (outputs ++ [o]) = add (sumOutputValues outputs) (Value o).
Proof. unfold sumOutputValues. now rewrite foldl_snoc. Qed.

Lemma sumSKAOutputValues_snoc outputs o :
  sumSKAOutputValues (outputs ++ [o])
  = sumSKAOutputValues outputs + default 0 (SKAValue o).
Proof.
  unfold sumSKAOutputValues. rewrite foldl_snoc.
  destruct (SKAValue o); unfold default; cbn [from_option id]; lia.
Qed.

Section Author.
Context {E Src : Type}.
Variable FeeForSerializeSize : Z -> Z -> Z.
Variable IsDustAmount : Z -> Z -> Z -> bool.
Variable IsSKAEmissionTransaction : MsgTx -> bool.
Variable IsSKA : Z -> bool.
Variable SerializeSize : TxOut -> Z.
Variable MaxScriptElementSize : Z.
Variable fetchInputs : Src -> Z -> (InputDetail + E) * Src.

(** The estimator on these outputs is the estimator of [TxSizes] on
    outputs of the same serialize sizes. *)
Lemma estimate_as_TxSizes ss outs c (isSKA : bool) :
  estimateSerializeSizeInternal SerializeSize ss outs c isSKA
  = TxSizes.estimateSerializeSizeInternal Wire.Value ss
      ((fun o => Wire.mkTxOut (SerializeSize o) 0 0 []) <$> outs) c isSKA.
Proof.
  unfold estimateSerializeSizeInternal, TxSizes.estimateSerializeSizeInternal,
    sumOutputSerializeSizes, TxSizes.sumOutputSerializeSizes.
  rewrite foldl_fmap. unfold len. rewrite length_fmap. reflexivity.
Qed.

(** A change script size that is not negative never lowers the estimate,
    short of overflow. *)
Lemma estimate_without_change_le ss outs c (isSKA : bool) :
  0 <= c ->
  len outs < MaxInt ->
  in_range (estimateSerializeSizeInternal SerializeSize ss outs 0 isSKA
            + ((if isSKA then 1 + 1 + 16 + 2 else 8 + 1 + 2)
               + Wire.VarIntSerializeSize (uint64 c) + c
               + (Wire.VarIntSerializeSize (uint64 (len outs + 1))
                  - Wire.VarIntSerializeSize (uint64 (len outs))))) ->
  estimateSerializeSizeInternal SerializeSize ss outs 0 isSKA
  <= estimateSerializeSizeInternal SerializeSize ss outs c isSKA.
Proof.
  intros Hc Hlen Hrange.
  destruct (Z.eq_dec c 0) as [->|Hne]; [lia|].
  rewrite !estimate_as_TxSizes in *.
  assert (Hlen' : len ((fun o => Wire.mkTxOut (SerializeSize o) 0 0 [])
                         <$> outs) = len outs)
    by (unfold len; now rewrite length_fmap).
  pose proof (TxSizesProps.change_increment Wire.Value ss
                ((fun o => Wire.mkTxOut (SerializeSize o) 0 0 []) <$> outs)
                c isSKA ltac:(lia) ltac:(rewrite Hlen'; exact Hlen)) as H.
  cbv zeta in H. rewrite Hlen' in H.
  destruct H as (_ & _ & H). specialize (H Hrange). lia.
Qed.

Local Abbreviation iter :=
  (iteration FeeForSerializeSize IsDustAmount IsSKAEmissionTransaction IsSKA
     SerializeSize MaxScriptElementSize fetchInputs).
Local Abbreviation loop :=
  (authorLoop FeeForSerializeSize IsDustAmount IsSKAEmissionTransaction IsSKA
     SerializeSize MaxScriptElementSize fetchInputs).
Local Abbreviation author :=
  (NewUnsignedTransaction FeeForSerializeSize IsDustAmount
     IsSKAEmissionTransaction IsSKA SerializeSize MaxScriptElementSize
     fetchInputs).
Local Abbreviation feeOf :=
  (requiredFee FeeForSerializeSize IsSKAEmissionTransaction IsSKA
     SerializeSize).
Local Abbreviation sizeOf := (sizeWithChange IsSKA SerializeSize).

(** The loop returns what its last pass decided. *)
Lemma authorLoop_stop fuel outputs relay cscript cver csize maxTxSize
    fee st r st' :
  loop fuel outputs relay cscript cver csize maxTxSize fee st
  = Some (r, st') ->
  exists fee0 st0,
    iter outputs relay cscript cver csize maxTxSize fee0 st0 = (Stop r, st').
Proof.
  revert fee st. induction fuel as [|fuel IH]; intros fee st; [discriminate|].
  cbn [authorLoop].
  destruct (iter outputs relay cscript cver csize maxTxSize fee st)
    as [[fee'|r0] st0] eqn:Hit.
  - apply IH.
  - intros [= <- <-]. eauto.
Qed.

(** More fuel does not change what the loop returns. *)
Lemma authorLoop_more_fuel fuel k outputs relay cscript cver csize maxTxSize
    fee st res :
  loop fuel outputs relay cscript cver csize maxTxSize fee st = Some res ->
  loop (fuel + k)%nat outputs relay cscript cver csize maxTxSize fee st
  = Some res.
Proof.
  revert fee st. induction fuel as [|fuel IH]; intros fee st; [discriminate|].
  cbn [authorLoop Nat.add].
  destruct (iter outputs relay cscript cver csize maxTxSize fee st)
    as [[fee'|r0] st0]; [apply IH | trivial].
Qed.

(** What a pass that returns a transaction for primary-asset outputs went
    through. *)
Lemma iteration_success_VAR outputs relay cscript cver csize maxTxSize
    fee st tx st' :
  isSKAOutputs IsSKA outputs = false ->
  iter outputs relay cscript cver csize maxTxSize fee st
  = (Stop (inl tx), st') ->
  exists d,
    fetchInputs st (add (sumOutputValues outputs) fee) = (inl d, st')
    /\ add (sumOutputValues outputs) fee <= Amount d
    /\ feeOf outputs relay csize d
       <= sub (Amount d) (sumOutputValues outputs)
    /\ sizeOf outputs csize d <= maxTxSize
    /\ let change := sub (sub (Amount d) (sumOutputValues outputs))
                         (feeOf outputs relay csize d) in
       (change <> 0
        /\ IsDustAmount change csize relay = false
        /\ len cscript <= MaxScriptElementSize
        /\ tx = mkAuthoredTx
                  (mkMsgTx TxSerializeFull generatedTxVersion (Inputs d)
                     (outputs ++ [mkTxOut change None
                                    (changeCoinTypeOf outputs) cver cscript])
                     0 0)
                  (Scripts d) (Amount d) (SKAAmount d) (len outputs)
                  (sizeOf outputs csize d))
       \/ ((change = 0 \/ IsDustAmount change csize relay = true)
           /\ tx = mkAuthoredTx
                     (mkMsgTx TxSerializeFull generatedTxVersion (Inputs d)
                        outputs 0 0)
                     (Scripts d) (Amount d) (SKAAmount d) (-1)
                     (EstimateSerializeSize SerializeSize
                        (RedeemScriptSizes d) outputs 0)).
Proof.
  intros Hvar. unfold iteration, requiredFee, sizeWithChange, changeCoinTypeOf.
  rewrite Hvar.
  destruct (fetchInputs st (add (sumOutputValues outputs) fee))
    as [[d|err] st0]; [|discriminate].
  destruct (Z.ltb_spec (Amount d) (add (sumOutputValues outputs) fee))
    as [|Hsuff]; [discriminate|].
  set (required := if IsSKAEmissionTransaction _ then 0 else _).
  destruct (Z.ltb_spec (sub (Amount d) (sumOutputValues outputs)) required)
    as [|Hfee]; [discriminate|].
  destruct (Z.ltb_spec maxTxSize
              (EstimateSerializeSize SerializeSize (RedeemScriptSizes d)
                 outputs csize)) as [|Hsize]; [discriminate|].
  set (change := sub (sub (Amount d) (sumOutputValues outputs)) required).
  destruct (Z.eqb_spec change 0) as [Hz|Hnz]; cbn [negb andb].
  - intros [= <- <-]. exists d. repeat (split; [assumption || reflexivity|]).
    right. split; [now left | reflexivity].
  - destruct (IsDustAmount change csize relay) eqn:Hdust; cbn [negb].
    + intros [= <- <-]. exists d.
      repeat (split; [assumption || reflexivity|]).
      right. split; [now right | reflexivity].
    + destruct (Z.ltb_spec MaxScriptElementSize (len cscript)) as [|Hscr];
        [discriminate|].
      intros [= <- <-]. exists d.
      repeat (split; [assumption || reflexivity|]).
      left. repeat (split; [assumption || reflexivity|]). reflexivity.
Qed.

(** The same for secondary-asset outputs, where the amounts are
    arbitrary-precision integers. *)
Lemma iteration_success_SKA outputs relay cscript cver csize maxTxSize
    fee st tx st' :
  isSKAOutputs IsSKA outputs = true ->
  iter outputs relay cscript cver csize maxTxSize fee st
  = (Stop (inl tx), st') ->
  exists d,
    fetchInputs st 0 = (inl d, st')
    /\ sumSKAOutputValues outputs + fee <= SKAAmount d
    /\ feeOf outputs relay csize d
       <= SKAAmount d - sumSKAOutputValues outputs
    /\ sizeOf outputs csize d <= maxTxSize
    /\ let change := SKAAmount d - sumSKAOutputValues outputs
                     - feeOf outputs relay csize d in
       (0 < change
        /\ len cscript <= MaxScriptElementSize
        /\ tx = mkAuthoredTx
                  (mkMsgTx TxSerializeFull generatedTxVersion (Inputs d)
                     (outputs ++ [mkTxOut 0 (Some change)
                                    (changeCoinTypeOf outputs) cver cscript])
                     0 0)
                  (Scripts d) (Amount d) (SKAAmount d) (len outputs)
                  (sizeOf outputs csize d))
       \/ (change = 0
           /\ tx = mkAuthoredTx
                     (mkMsgTx TxSerializeFull generatedTxVersion (Inputs d)
                        outputs 0 0)
                     (Scripts d) (Amount d) (SKAAmount d) (-1)
                     (EstimateSerializeSizeSKA SerializeSize
                        (RedeemScriptSizes d) outputs 0)).
Proof.
  intros Hska. unfold iteration, requiredFee, sizeWithChange, changeCoinTypeOf.
  rewrite Hska.
  destruct (fetchInputs st 0) as [[d|err] st0]; [|discriminate].
  destruct (Z.ltb_spec (SKAAmount d) (sumSKAOutputValues outputs + fee))
    as [|Hsuff]; [discriminate|].
  set (required := if IsSKAEmissionTransaction _ then 0 else _).
  destruct (Z.ltb_spec (SKAAmount d - sumSKAOutputValues outputs) required)
    as [|Hfee]; [discriminate|].
  destruct (Z.ltb_spec maxTxSize
              (EstimateSerializeSizeSKA SerializeSize (RedeemScriptSizes d)
                 outputs csize)) as [|Hsize]; [discriminate|].
  set (change := SKAAmount d - sumSKAOutputValues outputs - required).
  destruct (Z.eqb_spec change 0) as [Hz|Hnz]; cbn [negb andb].
  - intros [= <- <-]. exists d. repeat (split; [assumption || reflexivity|]).
    right. split; [assumption | reflexivity].
  - destruct (Z.ltb_spec change 0) as [Hneg|Hpos]; cbn [negb].
    + exfalso. unfold change in Hneg. lia.
    + destruct (Z.ltb_spec MaxScriptElementSize (len cscript)) as [|Hscr];
        [discriminate|].
      intros [= <- <-]. exists d.
      repeat (split; [assumption || reflexivity|]).
      left. split; [lia|]. split; [assumption | reflexivity].
Qed.

Lemma at_index_snoc (outputs : list TxOut) o :
  at_index (outputs ++ [o]) (len outputs) = Some o.
Proof.
  unfold at_index, len.
  destruct (Z.ltb_spec (Z.of_nat (length outputs)) 0); [lia|].
  rewrite Nat2Z.id. apply list_lookup_middle. reflexivity.
Qed.

(** What [NewUnsignedTransaction] returns came out of a pass of the loop
    run with the change source's script. *)
Lemma author_stop fuel outputs relay st cs maxTxSize r st' :
  author fuel outputs relay st cs maxTxSize = Some (r, st') ->
  (exists err, Script cs = inr err /\ r = inr (OpErr op err))
  \/ exists cscript cver fee0 st0,
       Script cs = inl (cscript, cver)
       /\ iter outputs relay cscript cver (ScriptSize cs) maxTxSize fee0 st0
          = (Stop r, st').
Proof.
  unfold NewUnsignedTransaction.
  destruct (Script cs) as [[cscript cver]|err].
  - intros H. apply authorLoop_stop in H as (fee0 & st0 & H).
    right. eauto 6.
  - intros [= <- <-]. left. eauto.
Qed.

(** X11: the transaction [NewUnsignedTransaction] returns has version 1, no
    lock time and no expiry, and its outputs are the requested outputs in
    their order, followed by at most one change output.  [ChangeIndex] is
    -1 when there is none and otherwise the position of the change output,
    which pays to the change source's script with the coin type of the
    first requested output (the primary asset when none is requested). *)
Theorem authored_outputs fuel outputs relay st cs maxTxSize tx st' :
  author fuel outputs relay st cs maxTxSize = Some (inl tx, st') ->
  MsgVersion (Tx tx) = 1
  /\ LockTime (Tx tx) = 0
  /\ Expiry (Tx tx) = 0
  /\ SerType (Tx tx) = TxSerializeFull
  /\ ((ChangeIndex tx = -1 /\ MsgTxOut (Tx tx) = outputs)
      \/ exists change cscript cver,
           Script cs = inl (cscript, cver)
           /\ ChangeIndex tx = len outputs
           /\ MsgTxOut (Tx tx) = outputs ++ [change]
           /\ at_index (MsgTxOut (Tx tx)) (ChangeIndex tx) = Some change
           /\ PkScript change = cscript
           /\ Version change = cver
           /\ CoinType change = changeCoinTypeOf outputs
           /\ len cscript <= MaxScriptElementSize).
Proof.
  intros H. apply author_stop in H as [(err & _ & [=])|H].
  destruct H as (cscript & cver & fee0 & st0 & Hcs & Hit).
  destruct (isSKAOutputs IsSKA outputs) eqn:Hska.
  - apply (iteration_success_SKA _ _ _ _ _ _ _ _ _ _ Hska) in Hit
      as (d & _ & _ & _ & _ & [(_ & Hscr & ->)|(_ & ->)]);
      cbn [Tx MsgVersion LockTime Expiry SerType ChangeIndex MsgTxOut];
      repeat (split; [reflexivity|]).
    + right. eexists _, cscript, cver.
      repeat (split; [eassumption || reflexivity || apply at_index_snoc|]).
      exact Hscr.
    + left. split; reflexivity.
  - apply (iteration_success_VAR _ _ _ _ _ _ _ _ _ _ Hska) in Hit
      as (d & _ & _ & _ & _ & [(_ & _ & Hscr & ->)|(_ & ->)]);
      cbn [Tx MsgVersion LockTime Expiry SerType ChangeIndex MsgTxOut];
      repeat (split; [reflexivity|]).
    + right. eexists _, cscript, cver.
      repeat (split; [eassumption || reflexivity || apply at_index_snoc|]).
      exact Hscr.
    + left. split; reflexivity.
Qed.

(** X12: secondary-asset value is conserved exactly: the total the input source
    supplied equals the sum of the outputs of the returned transaction,
    change included, plus the fee required for the estimate with change
    (also when no change output was added). *)
Theorem SKA_value_conserved fuel outputs relay st cs maxTxSize tx st' :
  isSKAOutputs IsSKA outputs = true ->
  author fuel outputs relay st cs maxTxSize = Some (inl tx, st') ->
  exists d st0,
    fetchInputs st0 0 = (inl d, st')
    /\ MsgTxIn (Tx tx) = Inputs d
    /\ PrevScripts tx = Scripts d
    /\ SKATotalInput tx = SKAAmount d
    /\ SKATotalInput tx
       = sumSKAOutputValues (MsgTxOut (Tx tx))
         + feeOf outputs relay (ScriptSize cs) d.
Proof.
  intros Hska H. apply author_stop in H as [(err & _ & [=])|H].
  destruct H as (cscript & cver & fee0 & st0 & Hcs & Hit).
  apply (iteration_success_SKA _ _ _ _ _ _ _ _ _ _ Hska) in Hit
    as (d & Hfetch & _ & _ & _ & [(_ & _ & ->)|(Hz & ->)]);
    exists d, st0;
    cbn [Tx MsgTxIn MsgTxOut PrevScripts SKATotalInput];
    repeat (split; [assumption || reflexivity|]).
  - rewrite sumSKAOutputValues_snoc. cbn. lia.
  - lia.
Qed.

(** X13: primary-asset value: the amount the input source supplied covers the
    requested outputs and the fee required for the estimate with change.
    When a change output was added, outputs plus that fee add up to the
    input amount (in [int64] arithmetic) and the estimate returned is the
    one the fee was computed for; when none was added, what is left after
    that fee is nothing or dust, and goes to the fee. *)
Theorem VAR_value_conserved fuel outputs relay st cs maxTxSize tx st' :
  isSKAOutputs IsSKA outputs = false ->
  author fuel outputs relay st cs maxTxSize = Some (inl tx, st') ->
  exists d st0 t,
    fetchInputs st0 t = (inl d, st')
    /\ MsgTxIn (Tx tx) = Inputs d
    /\ PrevScripts tx = Scripts d
    /\ TotalInput tx = Amount d
    /\ feeOf outputs relay (ScriptSize cs) d
       <= sub (TotalInput tx) (sumOutputValues outputs)
    /\ ((ChangeIndex tx = len outputs
         /\ add (sumOutputValues (MsgTxOut (Tx tx)))
                (feeOf outputs relay (ScriptSize cs) d)
            = wrap (TotalInput tx)
         /\ EstimatedSignedSerializeSize tx
            = sizeOf outputs (ScriptSize cs) d)
        \/ (ChangeIndex tx = -1
            /\ MsgTxOut (Tx tx) = outputs
            /\ let left_over :=
                 sub (sub (TotalInput tx) (sumOutputValues outputs))
                     (feeOf outputs relay (ScriptSize cs) d) in
               left_over = 0
               \/ IsDustAmount left_over (ScriptSize cs) relay = true)).
Proof.
  intros Hvar H. apply author_stop in H as [(err & _ & [=])|H].
  destruct H as (cscript & cver & fee0 & st0 & Hcs & Hit).
  apply (iteration_success_VAR _ _ _ _ _ _ _ _ _ _ Hvar) in Hit
    as (d & Hfetch & _ & Hfee & _ & [(_ & _ & _ & ->)|(Hleft & ->)]);
    exists d, st0, (add (sumOutputValues outputs) fee0);
    cbn [Tx MsgTxIn MsgTxOut PrevScripts TotalInput ChangeIndex
         EstimatedSignedSerializeSize];
    repeat (split; [assumption || reflexivity|]).
  - left. split; [reflexivity|]. split; [|reflexivity].
    rewrite sumOutputValues_snoc. cbn [Value]. unfold sub. wrap_solve.
  - right. split; [reflexivity|]. split; [reflexivity|]. exact Hleft.
Qed.

(** X14: with a change script size that is not negative, the estimate in the
    returned transaction does not exceed the caller's maximum, as long as
    the estimates for the script sizes the input source hands out do not
    overflow. *)
Theorem authored_size_within_maximum
    fuel outputs relay st cs maxTxSize tx st' :
  0 <= ScriptSize cs ->
  len outputs < MaxInt ->
  (forall s t d s',
     fetchInputs s t = (inl d, s') ->
     in_range
       (estimateSerializeSizeInternal SerializeSize (RedeemScriptSizes d)
          outputs 0 (isSKAOutputs IsSKA outputs)
        + ((if isSKAOutputs IsSKA outputs then 1 + 1 + 16 + 2
            else 8 + 1 + 2)
           + Wire.VarIntSerializeSize (uint64 (ScriptSize cs))
           + ScriptSize cs
           + (Wire.VarIntSerializeSize (uint64 (len outputs + 1))
              - Wire.VarIntSerializeSize (uint64 (len outputs)))))) ->
  author fuel outputs relay st cs maxTxSize = Some (inl tx, st') ->
  EstimatedSignedSerializeSize tx <= maxTxSize.
Proof.
  intros Hc Hlen Hsrc H. apply author_stop in H as [(err & _ & [=])|H].
  destruct H as (cscript & cver & fee0 & st0 & Hcs & Hit).
  destruct (isSKAOutputs IsSKA outputs) eqn:Hska.
  - apply (iteration_success_SKA _ _ _ _ _ _ _ _ _ _ Hska) in Hit
      as (d & Hfetch & _ & _ & Hsize & [(_ & _ & ->)|(_ & ->)]);
      cbn [EstimatedSignedSerializeSize]; [exact Hsize|].
    unfold sizeWithChange in Hsize. rewrite Hska in Hsize.
    pose proof (estimate_without_change_le (RedeemScriptSizes d) outputs
                  (ScriptSize cs) true Hc Hlen (Hsrc _ _ _ _ Hfetch)).
    unfold EstimateSerializeSizeSKA in *. lia.
  - apply (iteration_success_VAR _ _ _ _ _ _ _ _ _ _ Hska) in Hit
      as (d & Hfetch & _ & _ & Hsize & [(_ & _ & _ & ->)|(_ & ->)]);
      cbn [EstimatedSignedSerializeSize]; [exact Hsize|].
    unfold sizeWithChange in Hsize. rewrite Hska in Hsize.
    pose proof (estimate_without_change_le (RedeemScriptSizes d) outputs
                  (ScriptSize cs) false Hc Hlen (Hsrc _ _ _ _ Hfetch)).
    unfold EstimateSerializeSize in *. lia.
Qed.

(** X15: a pass that goes round again raises the fee target strictly.  For
    secondary-asset outputs this holds always; for primary-asset outputs
    it holds when neither the sum of outputs and fee target nor what the
    supplied amount leaves after the outputs overflows an [int64]. *)
Theorem retry_raises_fee outputs relay cscript cver csize maxTxSize
    fee st fee' st' :
  iter outputs relay cscript cver csize maxTxSize fee st
  = (Retry fee', st') ->
  isSKAOutputs IsSKA outputs = true
  \/ (in_range (sumOutputValues outputs + fee)
      /\ forall d,
           (fetchInputs st (add (sumOutputValues outputs) fee)).1 = inl d ->
           in_range (Amount d - sumOutputValues outputs)) ->
  fee < fee'.
Proof.
  unfold iteration. intros Hit Hcase.
  destruct (isSKAOutputs IsSKA outputs) eqn:Hska.
  - destruct (fetchInputs st 0) as [[d|err] st0]; [|discriminate].
    destruct (Z.ltb_spec (SKAAmount d) (sumSKAOutputValues outputs + fee))
      as [|Hsuff]; [discriminate|].
    set (required := if IsSKAEmissionTransaction _ then 0 else _) in *.
    destruct (Z.ltb_spec (SKAAmount d - sumSKAOutputValues outputs) required)
      as [Hlt|].
    + injection Hit as <- _. lia.
    + destruct (maxTxSize <? _); [discriminate|].
      destruct (_ && _); [destruct (_ <? _)|]; discriminate.
  - destruct Hcase as [[=]|[Hsum Hsrc]].
    destruct (fetchInputs st (add (sumOutputValues outputs) fee))
      as [[d|err] st0]; [|discriminate].
    specialize (Hsrc d eq_refl).
    destruct (Z.ltb_spec (Amount d) (add (sumOutputValues outputs) fee))
      as [|Hsuff]; [discriminate|].
    set (required := if IsSKAEmissionTransaction _ then 0 else _) in *.
    destruct (Z.ltb_spec (sub (Amount d) (sumOutputValues outputs)) required)
      as [Hlt|].
    + injection Hit as <- _.
      rewrite (add_small _ _ Hsum) in Hsuff.
      rewrite (sub_small _ _ Hsrc) in Hlt. lia.
    + destruct (maxTxSize <? _); [discriminate|].
      destruct (_ && _); [destruct (_ <? _)|]; discriminate.
Qed.

(** What a pass that goes round again went through. *)
Lemma iteration_retry outputs relay cscript cver csize maxTxSize
    fee st fee' st' :
  iter outputs relay cscript cver csize maxTxSize fee st
  = (Retry fee', st') ->
  exists d,
    fetchInputs st (if isSKAOutputs IsSKA outputs then 0
                    else add (sumOutputValues outputs) fee) = (inl d, st')
    /\ fee' = feeOf outputs relay csize d
    /\ (if isSKAOutputs IsSKA outputs
        then SKAAmount d - sumSKAOutputValues outputs < fee'
        else sub (Amount d) (sumOutputValues outputs) < fee').
Proof.
  unfold iteration, requiredFee, sizeWithChange. intros Hit.
  destruct (isSKAOutputs IsSKA outputs) eqn:Hska.
  - destruct (fetchInputs st 0) as [[d|err] st0]; [|discriminate].
    destruct (SKAAmount d <? sumSKAOutputValues outputs + fee);
      [discriminate|].
    set (required := if IsSKAEmissionTransaction _ then 0 else _) in *.
    destruct (Z.ltb_spec (SKAAmount d - sumSKAOutputValues outputs) required)
      as [Hlt|].
    + injection Hit as <- <-. exists d. auto.
    + destruct (maxTxSize <? _); [discriminate|].
      destruct (_ && _); [destruct (_ <? _)|]; discriminate.
  - destruct (fetchInputs st (add (sumOutputValues outputs) fee))
      as [[d|err] st0]; [|discriminate].
    destruct (Amount d <? add (sumOutputValues outputs) fee);
      [discriminate|].
    set (required := if IsSKAEmissionTransaction _ then 0 else _) in *.
    destruct (Z.ltb_spec (sub (Amount d) (sumOutputValues outputs)) required)
      as [Hlt|].
    + injection Hit as <- <-. exists d. auto.
    + destruct (maxTxSize <? _); [discriminate|].
      destruct (_ && _); [destruct (_ <? _)|]; discriminate.
Qed.

(** A pass leaves the input source in the state its one call produced. *)
Lemma iteration_state outputs relay cscript cver csize maxTxSize fee st :
  (iter outputs relay cscript cver csize maxTxSize fee st).2
  = (fetchInputs st (if isSKAOutputs IsSKA outputs then 0
                     else add (sumOutputValues outputs) fee)).2.
Proof.
  unfold iteration.
  destruct (isSKAOutputs IsSKA outputs);
    destruct (fetchInputs st _) as [[d|err] st0]; cbn [snd];
    repeat match goal with
           | |- context [if ?b then _ else _] =>
               lazymatch b with
               | context [if _ then _ else _] => fail
               | _ => destruct b
               end
           end; reflexivity.
Qed.

(** A pass that finds the supplied amount short of outputs plus fee target
    stops with an insufficient-balance error. *)
Lemma iteration_insufficient outputs relay cscript cver csize maxTxSize
    fee st d st' :
  fetchInputs st (if isSKAOutputs IsSKA outputs then 0
                  else add (sumOutputValues outputs) fee) = (inl d, st') ->
  (if isSKAOutputs IsSKA outputs
   then SKAAmount d < sumSKAOutputValues outputs + fee
   else Amount d < add (sumOutputValues outputs) fee) ->
  iter outputs relay cscript cver csize maxTxSize fee st
  = (Stop (inr (OpKind op InsufficientBalance)), st').
Proof.
  unfold iteration. intros Hfetch Hshort.
  destruct (isSKAOutputs IsSKA outputs); rewrite Hfetch.
  - now rewrite (proj2 (Z.ltb_lt _ _) Hshort).
  - now rewrite (proj2 (Z.ltb_lt _ _) Hshort).
Qed.

(** X16: termination for an input source that hands out the same inputs whatever
    the target (as one that always returns all it has): the function
    returns after at most two passes, whatever larger bound the loop is
    given, and if the first pass asked for more fee the call ends with an
    insufficient-balance error.  For primary-asset outputs the amounts
    involved must not overflow an [int64]. *)
Theorem constant_source_returns outputs relay st cs maxTxSize d cscript cver :
  (forall s t, fetchInputs s t = (inl d, s)) ->
  Script cs = inl (cscript, cver) ->
  isSKAOutputs IsSKA outputs = true
  \/ (in_range (Amount d - sumOutputValues outputs)
      /\ in_range (sumOutputValues outputs
                   + feeOf outputs relay (ScriptSize cs) d)) ->
  exists r,
    (forall fuel, (2 <= fuel)%nat ->
       author fuel outputs relay st cs maxTxSize = Some (r, st))
    /\ (forall fee',
          iter outputs relay cscript cver (ScriptSize cs) maxTxSize
            (initialTargetFee FeeForSerializeSize IsSKAEmissionTransaction
               IsSKA SerializeSize outputs relay (ScriptSize cs)) st
          = (Retry fee', st) ->
          r = inr (OpKind op InsufficientBalance)).
Proof.
  intros Hconst Hcs Hcase.
  set (fee0 := initialTargetFee FeeForSerializeSize IsSKAEmissionTransaction
                 IsSKA SerializeSize outputs relay (ScriptSize cs)).
  assert (Hst : forall fee,
            (iter outputs relay cscript cver (ScriptSize cs) maxTxSize
               fee st).2 = st).
  { intros fee. rewrite iteration_state. now rewrite Hconst. }
  assert (Hfuel : forall r,
            loop 2 outputs relay cscript cver (ScriptSize cs) maxTxSize
              fee0 st = Some (r, st) ->
            forall fuel, (2 <= fuel)%nat ->
              author fuel outputs relay st cs maxTxSize = Some (r, st)).
  { intros r Hr fuel Hge. unfold NewUnsignedTransaction. rewrite Hcs.
    fold fee0. replace fuel with (2 + (fuel - 2))%nat by lia.
    now apply authorLoop_more_fuel. }
  destruct (iter outputs relay cscript cver (ScriptSize cs) maxTxSize fee0 st)
    as [[fee1|r] st1] eqn:Hit.
  - pose proof (Hst fee0) as Hst1. rewrite Hit in Hst1. cbn in Hst1. subst st1.
    exists (inr (OpKind op InsufficientBalance)). split; [|reflexivity].
    apply Hfuel. cbn [authorLoop]. rewrite Hit.
    apply iteration_retry in Hit as (d' & Hfetch & -> & Hshort).
    rewrite Hconst in Hfetch. injection Hfetch as <-.
    rewrite (iteration_insufficient _ _ _ _ _ _ _ _ d st); [reflexivity| |].
    + apply Hconst.
    + destruct (isSKAOutputs IsSKA outputs).
      * lia.
      * destruct Hcase as [[=]|[Hsub Hadd]].
        rewrite (sub_small _ _ Hsub) in Hshort.
        rewrite (add_small _ _ Hadd). lia.
  - pose proof (Hst fee0) as Hst1. rewrite Hit in Hst1. cbn in Hst1. subst st1.
    exists r. split; [|discriminate].
    apply Hfuel. cbn [authorLoop]. now rewrite Hit.
Qed.

(** One input whose script is no larger than the worst-case P2PKH script
    the fee is seeded with costs as many bytes less as its script is
    shorter. *)
Lemma estimate_single_input s outs c (isSKA : bool) :
  0 <= s <= 108 ->
  estimateSerializeSizeInternal SerializeSize
    [TxSizes.RedeemP2PKHSigScriptSize] outs c isSKA
  = add (estimateSerializeSizeInternal SerializeSize [s] outs c isSKA)
        (108 - s).
Proof.
  intros Hs. rewrite !estimate_as_TxSizes.
  rewrite !TxSizesFacts.estimateSerializeSizeInternal_total.
  unfold TxSizes.specTotal, TxSizes.witnessBytes, Zsum,
    TxSizes.RedeemP2PKHSigScriptSize.
  cbn [fmap list_fmap foldr].
  change (len [1 + 73 + 1 + 33]) with (len [s]).
  rewrite (uint64_small s) by lia.
  change (uint64 (1 + 73 + 1 + 33)) with 108.
  assert (Hv : Wire.VarIntSerializeSize s = 1).
  { unfold Wire.VarIntSerializeSize.
    destruct (Z.ltb_spec s 253); [reflexivity | lia]. }
  rewrite Hv. change (Wire.VarIntSerializeSize 108) with 1.
  wrap_solve.
Qed.

(** X17: why the fee is seeded with a worst-case input: for primary-asset
    outputs and a fee rule that grows with the size, when the input source
    meets the first target with a single input whose script is at most 108
    bytes long, the first pass does not ask for more fee and the function
    returns after that one pass (amounts and sizes not overflowing). *)
Theorem worst_case_seed_needs_one_pass
    outputs relay st cs maxTxSize cscript cver d st' s :
  isSKAOutputs IsSKA outputs = false ->
  (forall a b, a <= b ->
     FeeForSerializeSize relay a <= FeeForSerializeSize relay b) ->
  (forall tx, IsSKAEmissionTransaction tx = false) ->
  Script cs = inl (cscript, cver) ->
  let target := sumOutputValues outputs in
  let fee0 :=
    FeeForSerializeSize relay
      (EstimateSerializeSize SerializeSize
         [TxSizes.RedeemP2PKHSigScriptSize] outputs (ScriptSize cs)) in
  fetchInputs st (add target fee0) = (inl d, st') ->
  RedeemScriptSizes d = [s] ->
  0 <= s <= 108 ->
  add target fee0 <= Amount d ->
  in_range (target + fee0) ->
  in_range (Amount d - target) ->
  in_range (EstimateSerializeSize SerializeSize [s] outputs (ScriptSize cs)
            + (108 - s)) ->
  exists r,
    forall fuel, (1 <= fuel)%nat ->
      author fuel outputs relay st cs maxTxSize = Some (r, st').
Proof.
  intros Hvar Hmono Hem Hcs target fee0 Hfetch Hss Hs Hamt Hr2 Hr1 Hr3.
  assert (Hfee0 : initialTargetFee FeeForSerializeSize
                    IsSKAEmissionTransaction IsSKA SerializeSize
                    outputs relay (ScriptSize cs) = fee0).
  { unfold initialTargetFee. now rewrite Hvar, Hem. }
  assert (Hreq : FeeForSerializeSize relay
                   (EstimateSerializeSize SerializeSize [s] outputs
                      (ScriptSize cs)) <= fee0).
  { apply Hmono. unfold EstimateSerializeSize in *.
    rewrite (estimate_single_input s outputs (ScriptSize cs) false Hs).
    unfold add. rewrite (wrap_small _ Hr3). lia. }
  destruct (iter outputs relay cscript cver (ScriptSize cs) maxTxSize fee0 st)
    as [[fee1|r] st1] eqn:Hit.
  - exfalso. apply iteration_retry in Hit as (d' & Hfetch' & -> & Hshort).
    rewrite Hvar in Hfetch', Hshort. fold target in Hfetch', Hshort.
    rewrite Hfetch in Hfetch'. injection Hfetch' as <- <-.
    unfold requiredFee, sizeWithChange in Hshort.
    rewrite Hem, Hvar, Hss in Hshort.
    rewrite (sub_small _ _ Hr1) in Hshort.
    rewrite (add_small _ _ Hr2) in Hamt. lia.
  - assert (Hst : st1 = st').
    { pose proof (iteration_state outputs relay cscript cver (ScriptSize cs)
                    maxTxSize fee0 st) as H.
      rewrite Hit, Hvar in H. fold target in H. rewrite Hfetch in H.
      exact H. }
    subst st1. exists r. intros fuel Hfuel.
    unfold NewUnsignedTransaction. rewrite Hcs, Hfee0.
    replace fuel with (1 + (fuel - 1))%nat by lia.
    apply authorLoop_more_fuel. cbn [authorLoop]. now rewrite Hit.
Qed.

End Author.

(** [int32] of a length below 2^31 is that length. *)
Lemma int32_small z : 0 <= z < 2 ^ 31 -> int32 z = z.
Proof. intros Hz. unfold int32. rewrite Z.mod_small; lia. Qed.

Lemma at_index_Some {A} (l : list A) i :
  0 <= i < len l -> exists x, at_index l i = Some x /\ l !! Z.to_nat i = Some x.
Proof.
  unfold len, at_index. intros Hi.
  destruct (Z.ltb_spec i 0); [lia|].
  destruct (lookup_lt_is_Some_2 l (Z.to_nat i)) as [x Hx]; [lia|].
  exists x. auto.
Qed.

(** The swap [RandomizeOutputPosition] performs. *)
Lemma swap_outcome r outputs index :
  len outputs < 2 ^ 31 ->
  0 <= index < len outputs ->
  0 <= r < len outputs ->
  exists outputs',
    RandomizeOutputPosition r outputs index = Returns (outputs', r)
    /\ outputs' ≡ₚ outputs
    /\ at_index outputs' r = at_index outputs index
    /\ at_index outputs' index = at_index outputs r
    /\ (forall i, i <> r -> i <> index ->
          at_index outputs' i = at_index outputs i).
Proof.
  intros Hlen Hindex Hr. unfold RandomizeOutputPosition.
  rewrite int32_small by (pose proof (len_nonneg outputs); lia).
  destruct (Z.leb_spec (len outputs) 0); [lia|].
  destruct (at_index_Some outputs index Hindex) as (oi & Hoi & Hoi').
  destruct (at_index_Some outputs r Hr) as (orr & Horr & Horr').
  rewrite Hoi, Horr. eexists. split; [reflexivity|].
  assert (Hlt_i : (Z.to_nat index < length outputs)%nat) by (unfold len in *; lia).
  assert (Hlt_r : (Z.to_nat r < length outputs)%nat) by (unfold len in *; lia).
  split; [exact (Permutation_insert_swap outputs _ _ _ _ Horr' Hoi')|].
  split; [|split].
  - unfold at_index. destruct (Z.ltb_spec r 0); [lia|].
    destruct (Z.ltb_spec index 0); [lia|].
    destruct (decide (Z.to_nat index = Z.to_nat r)) as [Heq|Hne].
    + rewrite Heq, list_lookup_insert_eq by (now rewrite length_insert).
      congruence.
    + rewrite list_lookup_insert_ne by assumption.
      now rewrite list_lookup_insert_eq.
  - unfold at_index. destruct (Z.ltb_spec r 0); [lia|].
    destruct (Z.ltb_spec index 0); [lia|].
    now rewrite list_lookup_insert_eq by (now rewrite length_insert).
  - intros i Hir Hii. unfold at_index.
    destruct (Z.ltb_spec i 0); [reflexivity|].
    rewrite !list_lookup_insert_ne by lia. reflexivity.
Qed.

(** X18: with an index inside the slice, [RandomizeOutputPosition] returns the
    position the random number picked and leaves the slice with the
    outputs at that position and at the index exchanged, every other
    output in its place: the outputs are the same up to order. *)
Theorem RandomizeOutputPosition_swaps r outputs index :
  len outputs < 2 ^ 31 ->
  0 <= index < len outputs ->
  0 <= r < len outputs ->
  exists outputs',
    RandomizeOutputPosition r outputs index = Returns (outputs', r)
    /\ outputs' ≡ₚ outputs
    /\ at_index outputs' r = at_index outputs index
    /\ at_index outputs' index = at_index outputs r
    /\ (forall i, i <> r -> i <> index ->
          at_index outputs' i = at_index outputs i).
Proof. exact (swap_outcome r outputs index). Qed.

Lemma out_of_range_panics r outputs index :
  index < 0 \/ len outputs <= index ->
  RandomizeOutputPosition r outputs index = Panics.
Proof.
  intros Hout. unfold RandomizeOutputPosition.
  destruct (int32 (len outputs) <=? 0); [reflexivity|].
  assert (Hnone : at_index outputs index = None).
  { unfold at_index, len in *. destruct (Z.ltb_spec index 0); [reflexivity|].
    apply lookup_ge_None. lia. }
  now rewrite Hnone.
Qed.

(** X19: with an index outside the slice [RandomizeOutputPosition] panics,
    whatever number is drawn; so does [RandomizeChangePosition] on every
    transaction whose [ChangeIndex] is such an index, as the -1 of a
    transaction authored without change. *)
Theorem RandomizeOutputPosition_panics r outputs index :
  index < 0 \/ len outputs <= index ->
  RandomizeOutputPosition r outputs index = Panics
  /\ forall tx,
       MsgTxOut (Tx tx) = outputs ->
       ChangeIndex tx = index ->
       RandomizeChangePosition r tx = Panics.
Proof.
  intros Hout. split; [exact (out_of_range_panics r outputs index Hout)|].
  intros tx <- <-. unfold RandomizeChangePosition.
  now rewrite (out_of_range_panics r _ _ Hout).
Qed.

(** X20: [RandomizeChangePosition] on a transaction whose [ChangeIndex] points
    at its change output moves that output to the drawn position, keeps
    [ChangeIndex] pointing at it, and changes nothing else but the order
    of the outputs. *)
Theorem RandomizeChangePosition_tracks_change r tx change :
  at_index (MsgTxOut (Tx tx)) (ChangeIndex tx) = Some change ->
  len (MsgTxOut (Tx tx)) < 2 ^ 31 ->
  0 <= r < len (MsgTxOut (Tx tx)) ->
  exists tx',
    RandomizeChangePosition r tx = Returns tx'
    /\ ChangeIndex tx' = r
    /\ at_index (MsgTxOut (Tx tx')) (ChangeIndex tx') = Some change
    /\ MsgTxOut (Tx tx') ≡ₚ MsgTxOut (Tx tx)
    /\ MsgTxIn (Tx tx') = MsgTxIn (Tx tx)
    /\ MsgVersion (Tx tx') = MsgVersion (Tx tx)
    /\ PrevScripts tx' = PrevScripts tx
    /\ TotalInput tx' = TotalInput tx
    /\ EstimatedSignedSerializeSize tx' = EstimatedSignedSerializeSize tx.
Proof.
  intros Hchange Hlen Hr.
  assert (Hindex : 0 <= ChangeIndex tx < len (MsgTxOut (Tx tx))).
  { unfold at_index, len in *.
    destruct (Z.ltb_spec (ChangeIndex tx) 0); [discriminate|].
    apply lookup_lt_Some in Hchange. lia. }
  destruct (swap_outcome r _ _ Hlen Hindex Hr)
    as (outs' & Hret & Hperm & Hat & _ & _).
  unfold RandomizeChangePosition. rewrite Hret.
  eexists. split; [reflexivity|].
  cbn [Tx ChangeIndex MsgTxOut MsgTxIn MsgVersion PrevScripts TotalInput
       EstimatedSignedSerializeSize].
  split; [reflexivity|]. split; [now rewrite Hat|].
  split; [exact Hperm|]. repeat split.
Qed.

Section Signing.
Context {E : Type}.
Variable SignTxOutput :
  MsgTx -> nat -> list byte -> list byte -> list byte + E.

Lemma inputs_unchanged_refl (l : list Wire.TxIn) :
  Forall2 (fun a b => Wire.PreviousOutPoint a = Wire.PreviousOutPoint b
                      /\ Wire.ValueIn a = Wire.ValueIn b) l l.
Proof. induction l; constructor; [split; reflexivity | assumption]. Qed.

(** Two transactions that differ at most in the signature scripts of their
    inputs. *)
Lemma setSignatureScript_frame tx i script :
  MsgTxOut (setSignatureScript tx i script) = MsgTxOut tx
  /\ MsgVersion (setSignatureScript tx i script) = MsgVersion tx
  /\ LockTime (setSignatureScript tx i script) = LockTime tx
  /\ Expiry (setSignatureScript tx i script) = Expiry tx
  /\ Forall2 (fun a b => Wire.PreviousOutPoint a = Wire.PreviousOutPoint b
                         /\ Wire.ValueIn a = Wire.ValueIn b)
       (MsgTxIn tx) (MsgTxIn (setSignatureScript tx i script)).
Proof.
  unfold setSignatureScript. cbn [MsgTxOut MsgVersion LockTime Expiry MsgTxIn].
  repeat (split; [reflexivity|]).
  revert i. induction (MsgTxIn tx) as [|a l IH]; intros i; [constructor|].
  destruct i as [|i]; cbn [alter list_alter].
  - constructor; [split; reflexivity | apply inputs_unchanged_refl].
  - constructor; [split; reflexivity | apply IH].
Qed.

Lemma signInputs_frame indices prevPkScripts tx :
  Forall (fun i => (i < length (MsgTxIn tx))%nat) indices ->
  length prevPkScripts = length (MsgTxIn tx) ->
  exists tx' err,
    signInputs SignTxOutput indices prevPkScripts tx = Returns (tx', err)
    /\ MsgTxOut tx' = MsgTxOut tx
    /\ MsgVersion tx' = MsgVersion tx
    /\ LockTime tx' = LockTime tx
    /\ Expiry tx' = Expiry tx
    /\ Forall2 (fun a b => Wire.PreviousOutPoint a = Wire.PreviousOutPoint b
                           /\ Wire.ValueIn a = Wire.ValueIn b)
         (MsgTxIn tx) (MsgTxIn tx').
Proof.
  revert tx. induction indices as [|i rest IH]; intros tx Hall Hlen.
  - exists tx, None. cbn [signInputs]. repeat (split; [reflexivity|]).
    apply inputs_unchanged_refl.
  - apply Forall_cons in Hall as [Hi Hrest]. cbn [signInputs].
    destruct (lookup_lt_is_Some_2 prevPkScripts i) as [pk ->]; [lia|].
    destruct (lookup_lt_is_Some_2 (MsgTxIn tx) i Hi) as [txIn ->].
    destruct (SignTxOutput tx i pk (Wire.SignatureScript txIn))
      as [script|err].
    + destruct (setSignatureScript_frame tx i script)
        as (Ho & Hv & Hl & He & Hin).
      assert (Hlen' : length (MsgTxIn (setSignatureScript tx i script))
                      = length (MsgTxIn tx))
        by (symmetry; exact (Forall2_length _ _ _ Hin)).
      destruct (IH (setSignatureScript tx i script)) as
        (tx' & err & Hrun & Ho' & Hv' & Hl' & He' & Hin').
      * rewrite Hlen'. exact Hrest.
      * now rewrite Hlen'.
      * exists tx', err. rewrite Hrun. split; [reflexivity|].
        split; [congruence|]. split; [congruence|]. split; [congruence|].
        split; [congruence|].
        refine (Forall2_trans _ _ _ _ _ _ _ Hin Hin').
        intros a b c [? ?] [? ?]. split; congruence.
    + exists tx, (Some (SignerError err)).
      repeat (split; [reflexivity|]).
      apply inputs_unchanged_refl.
Qed.

(** X21: [AddAllInputScripts] always returns (no index goes out of range), and
    whether it succeeds or stops at an error it leaves the transaction's
    outputs, version, lock time and expiry, the number of inputs and each
    input's previous outpoint and value as they were: only signature
    scripts change.  When the numbers of inputs and of previous scripts
    differ it returns the length error and the transaction untouched. *)
Theorem AddAllInputScripts_frame tx prevPkScripts :
  exists tx' err,
    AddAllInputScripts SignTxOutput tx prevPkScripts = Returns (tx', err)
    /\ MsgTxOut tx' = MsgTxOut tx
    /\ MsgVersion tx' = MsgVersion tx
    /\ LockTime tx' = LockTime tx
    /\ Expiry tx' = Expiry tx
    /\ Forall2 (fun a b => Wire.PreviousOutPoint a = Wire.PreviousOutPoint b
                           /\ Wire.ValueIn a = Wire.ValueIn b)
         (MsgTxIn tx) (MsgTxIn tx')
    /\ (length (MsgTxIn tx) <> length prevPkScripts ->
        tx' = tx /\ err = Some LengthMismatch).
Proof.
  unfold AddAllInputScripts.
  destruct (Z.eqb_spec (len (MsgTxIn tx)) (len prevPkScripts)) as [Heq|Hne];
    cbn [negb].
  - assert (Hlen : length prevPkScripts = length (MsgTxIn tx))
      by (unfold len in Heq; lia).
    destruct (signInputs_frame (seq 0 (length (MsgTxIn tx))) prevPkScripts tx)
      as (tx' & err & Hrun & H).
    + apply Forall_forall. intros i Hi. apply elem_of_seq in Hi. lia.
    + exact Hlen.
    + exists tx', err. split; [exact Hrun|].
      destruct H as (? & ? & ? & ? & ?).
      repeat (split; [assumption|]). intros Hdiff. congruence.
  - exists tx, (Some LengthMismatch).
    repeat (split; [reflexivity|]).
    split; [apply inputs_unchanged_refl|].
    intros _. split; reflexivity.
Qed.

End Signing.

(** *** Runs of the model on the collaborators of the test *)

Lemma authored_outputs_witness :
  exists tx,
    sampleAuthor varInputSource varOutputs = Some (inl tx, tt)
    /\ MsgVersion (Tx tx) = 1
    /\ ChangeIndex tx = 1.
Proof.
  assert (H : exists tx,
            sampleAuthor varInputSource varOutputs = Some (inl tx, tt)
            /\ ChangeIndex tx = 1)
    by (eexists; vm_compute; split; reflexivity).
  destruct H as (tx & H & Hidx). exists tx. split; [exact H|].
  split; [|exact Hidx].
  exact (proj1 (authored_outputs _ _ _ _ _ _ _ _ _ _ _ _ _ _ _ H)).
Defined.

Lemma SKA_value_conserved_witness :
  isSKAOutputs sampleIsSKA skaOutputs = true
  /\ exists tx,
       sampleAuthor skaInputSource skaOutputs = Some (inl tx, tt)
       /\ SKATotalInput tx = 100010000
       /\ exists d st0,
            skaInputSource st0 0 = (inl d, tt)
            /\ SKATotalInput tx
               = sumSKAOutputValues (MsgTxOut (Tx tx))
                 + requiredFee sampleFee (fun _ => false) sampleIsSKA
                     sampleSerializeSize skaOutputs 1000
                     (ScriptSize mockChangeSource) d.
Proof.
  assert (Hska : isSKAOutputs sampleIsSKA skaOutputs = true) by reflexivity.
  split; [exact Hska|].
  assert (H : exists tx,
            sampleAuthor skaInputSource skaOutputs = Some (inl tx, tt)
            /\ SKATotalInput tx = 100010000)
    by (eexists; vm_compute; split; reflexivity).
  destruct H as (tx & H & Hin). exists tx. split; [exact H|].
  split; [exact Hin|].
  destruct (SKA_value_conserved _ _ _ _ _ _ _ _ _ _ _ _ _ _ _ Hska H)
    as (d & st0 & Hfetch & _ & _ & _ & Hsum).
  exists d, st0. split; [exact Hfetch | exact Hsum].
Defined.

Lemma VAR_value_conserved_witness :
  isSKAOutputs sampleIsSKA varOutputs = false
  /\ exists tx,
       sampleAuthor varInputSource varOutputs = Some (inl tx, tt)
       /\ TotalInput tx = 100001231
       /\ exists d,
            requiredFee sampleFee (fun _ => false) sampleIsSKA
              sampleSerializeSize varOutputs 1000
              (ScriptSize mockChangeSource) d
            <= sub (TotalInput tx) (sumOutputValues varOutputs).
Proof.
  assert (Hvar : isSKAOutputs sampleIsSKA varOutputs = false) by reflexivity.
  split; [exact Hvar|].
  assert (H : exists tx,
            sampleAuthor varInputSource varOutputs = Some (inl tx, tt)
            /\ TotalInput tx = 100001231)
    by (eexists; vm_compute; split; reflexivity).
  destruct H as (tx & H & Hin). exists tx. split; [exact H|].
  split; [exact Hin|].
  destruct (VAR_value_conserved _ _ _ _ _ _ _ _ _ _ _ _ _ _ _ Hvar H)
    as (d & st0 & t & _ & _ & _ & _ & Hfee & _).
  exists d. exact Hfee.
Defined.

Lemma authored_size_within_maximum_witness :
  0 <= ScriptSize mockChangeSource
  /\ len varOutputs < MaxInt
  /\ exists tx,
       sampleAuthor varInputSource varOutputs = Some (inl tx, tt)
       /\ EstimatedSignedSerializeSize tx <= 100000.
Proof.
  assert (Hc : 0 <= ScriptSize mockChangeSource) by (vm_compute; discriminate).
  assert (Hlen : len varOutputs < MaxInt) by (vm_compute; reflexivity).
  split; [exact Hc|]. split; [exact Hlen|].
  assert (H : exists tx,
            sampleAuthor varInputSource varOutputs = Some (inl tx, tt))
    by (eexists; vm_compute; reflexivity).
  destruct H as (tx & H). exists tx. split; [exact H|].
  refine (authored_size_within_maximum sampleFee (fun _ _ _ => false)
            (fun _ => false) sampleIsSKA sampleSerializeSize 2048
            varInputSource 3%nat varOutputs 1000 tt mockChangeSource 100000
            tx tt Hc Hlen _ H).
  intros s t d s' [= <- _]. cbn [RedeemScriptSizes].
  vm_compute. split; discriminate.
Defined.

Lemma retry_raises_fee_witness :
  iteration sampleFee (fun _ _ _ => false) (fun _ => false) sampleIsSKA
    sampleSerializeSize 2048 exactInputSource varOutputs 1000
    (replicate 25 x00) 0 25 100000 231 tt = (Retry 323, tt)
  /\ 231 < 323.
Proof.
  assert (Hit :
    iteration sampleFee (fun _ _ _ => false) (fun _ => false) sampleIsSKA
      sampleSerializeSize 2048 exactInputSource varOutputs 1000
      (replicate 25 x00) 0 25 100000 231 tt = (Retry 323, tt))
    by (vm_compute; reflexivity).
  split; [exact Hit|].
  refine (retry_raises_fee _ _ _ _ _ _ _ _ _ _ _ _ _ _ _ _ _ Hit _).
  right. split; [vm_compute; split; discriminate|].
  intros d [= <-]. vm_compute. split; discriminate.
Defined.

Lemma constant_source_returns_witness :
  (forall s t,
     skaInputSource s t
     = (inl (mkInputDetail 100010000 100010000 [mockInput 100010000]
               [] [25]), s))
  /\ exists r,
       forall fuel, (2 <= fuel)%nat ->
         NewUnsignedTransaction sampleFee (fun _ _ _ => false)
           (fun _ => false) sampleIsSKA sampleSerializeSize 2048
           skaInputSource fuel skaOutputs 1000 tt mockChangeSource 100000
         = Some (r, tt).
Proof.
  assert (Hconst : forall s t,
            skaInputSource s t
            = (inl (mkInputDetail 100010000 100010000 [mockInput 100010000]
                      [] [25]), s)) by reflexivity.
  split; [exact Hconst|].
  destruct (constant_source_returns sampleFee (fun _ _ _ => false)
              (fun _ => false) sampleIsSKA sampleSerializeSize 2048
              skaInputSource skaOutputs 1000 tt mockChangeSource 100000
              _ (replicate 25 x00) 0 Hconst eq_refl (or_introl eq_refl))
    as (r & Hr & _).
  exists r. exact Hr.
Defined.

Lemma worst_case_seed_needs_one_pass_witness :
  isSKAOutputs sampleIsSKA varOutputs = false
  /\ (forall a b, a <= b -> sampleFee 1000 a <= sampleFee 1000 b)
  /\ 0 <= 25 <= 108
  /\ exists r,
       forall fuel, (1 <= fuel)%nat ->
         NewUnsignedTransaction sampleFee (fun _ _ _ => false)
           (fun _ => false) sampleIsSKA sampleSerializeSize 2048
           varInputSource fuel varOutputs 1000 tt mockChangeSource 100000
         = Some (r, tt).
Proof.
  assert (Hvar : isSKAOutputs sampleIsSKA varOutputs = false) by reflexivity.
  assert (Hmono : forall a b, a <= b -> sampleFee 1000 a <= sampleFee 1000 b).
  { intros a b Hab. unfold sampleFee. apply Z.div_le_mono; lia. }
  assert (Hs : 0 <= 25 <= 108) by lia.
  split; [exact Hvar|]. split; [exact Hmono|]. split; [exact Hs|].
  refine (worst_case_seed_needs_one_pass sampleFee (fun _ _ _ => false)
            (fun _ => false) sampleIsSKA sampleSerializeSize 2048
            varInputSource varOutputs 1000 tt mockChangeSource 100000
            (replicate 25 x00) 0 _ tt 25 Hvar Hmono (fun _ => eq_refl)
            eq_refl eq_refl eq_refl Hs _ _ _ _);
    vm_compute; try (split; discriminate); discriminate.
Defined.

Lemma RandomizeOutputPosition_swaps_witness :
  len (varOutputs ++ skaOutputs) < 2 ^ 31
  /\ 0 <= 1 < len (varOutputs ++ skaOutputs)
  /\ 0 <= 0 < len (varOutputs ++ skaOutputs)
  /\ exists outputs',
       RandomizeOutputPosition 0 (varOutputs ++ skaOutputs) 1
       = Returns (outputs', 0)
       /\ outputs' ≡ₚ varOutputs ++ skaOutputs.
Proof.
  assert (H1 : len (varOutputs ++ skaOutputs) < 2 ^ 31)
    by (vm_compute; reflexivity).
  assert (H2 : 0 <= 1 < len (varOutputs ++ skaOutputs))
    by (vm_compute; split; [discriminate | reflexivity]).
  assert (H3 : 0 <= 0 < len (varOutputs ++ skaOutputs))
    by (vm_compute; split; [discriminate | reflexivity]).
  split; [exact H1|]. split; [exact H2|]. split; [exact H3|].
  destruct (RandomizeOutputPosition_swaps 0 _ 1 H1 H2 H3)
    as (outs' & Hret & Hperm & _).
  exists outs'. split; [exact Hret | exact Hperm].
Defined.

Lemma RandomizeOutputPosition_panics_witness :
  (-1 < 0 \/ len varOutputs <= -1)
  /\ RandomizeOutputPosition 0 varOutputs (-1) = Panics.
Proof.
  assert (H : -1 < 0 \/ len varOutputs <= -1) by (left; reflexivity).
  split; [exact H|].
  exact (proj1 (RandomizeOutputPosition_panics 0 varOutputs (-1) H)).
Defined.

Lemma RandomizeChangePosition_tracks_change_witness :
  exists tx change tx',
    sampleAuthor varInputSource varOutputs = Some (inl tx, tt)
    /\ at_index (MsgTxOut (Tx tx)) (ChangeIndex tx) = Some change
    /\ RandomizeChangePosition 0 tx = Returns tx'
    /\ at_index (MsgTxOut (Tx tx')) (ChangeIndex tx') = Some change.
Proof.
  assert (H : exists tx change,
            sampleAuthor varInputSource varOutputs = Some (inl tx, tt)
            /\ at_index (MsgTxOut (Tx tx)) (ChangeIndex tx) = Some change
            /\ len (MsgTxOut (Tx tx)) < 2 ^ 31
            /\ 0 <= 0 < len (MsgTxOut (Tx tx))).
  { eexists _, _. split; [vm_compute; reflexivity|].
    split; [reflexivity|].
    split; [vm_compute; reflexivity|].
    vm_compute. split; [discriminate | reflexivity]. }
  destruct H as (tx & change & Hrun & Hat & Hlen & Hr).
  destruct (RandomizeChangePosition_tracks_change 0 tx change Hat Hlen Hr)
    as (tx' & Hret & _ & Hat' & _).
  exists tx, change, tx'. auto.
Defined.

End TxAuthorFacts.

(** ** The recogniser on the transactions of the package tests *)
Module SSFeeProps.
Import GoInt GoIntFacts Wire SSFee.

Lemma splitFinal_snoc (rewards : list TxOut) final :
  splitFinal (rewards ++ [final]) = Some (rewards, final).
Proof.
  unfold splitFinal. rewrite reverse_app.
  change (reverse [final]) with [final]. cbn [app].
  now rewrite reverse_involutive.
Qed.

Lemma parseMarkerScript_markerScript t :
  parseMarkerScript (markerScript t) = Some (mkMarker t [x00; x00; x00; x00]).
Proof. destruct t; reflexivity. Qed.

Lemma sameCoinType_replicate n (o : TxOut) :
  sameCoinType (replicate (S n) o) = true.
Proof.
  cbn [replicate sameCoinType]. induction n as [|n IH]; [reflexivity|].
  cbn [replicate forallb]. now rewrite Z.eqb_refl, IH.
Qed.

(** X22: the transaction [createMockSSFeeTx] builds (version 3, one null input,
    [numOutputs] reward outputs of one coin type and amount, the marker
    output) is recognised as an SSFee of the requested flavour exactly when
    it has between 1 and 4 reward outputs, whatever the coin type and the
    amount; the rule applied is the structural rule of the specification. *)
Theorem createMockSSFeeTx_classified ct (numOutputs : nat) amount t :
  classifySSFee (createMockSSFeeTx ct numOutputs amount t)
  = if (1 <=? numOutputs)%nat && (numOutputs <=? 4)%nat
    then Some (mkMarker t [x00; x00; x00; x00])
    else None.
Proof.
  unfold classifySSFee, createMockSSFeeTx.
  cbn [MsgVersion MsgTxIn MsgTxOut]. change (negb (3 <=? 3)) with false.
  cbv beta iota.
  change (negb (inputShapeOk _)) with false. cbv beta iota.
  rewrite splitFinal_snoc. cbn [Value PkScript].
  change (negb (0 =? 0)) with false. cbv beta iota.
  rewrite parseMarkerScript_markerScript.
  unfold len. rewrite length_replicate.
  destruct numOutputs as [|n]; [reflexivity|].
  rewrite sameCoinType_replicate, andb_true_r.
  destruct (Z.leb_spec 1 (Z.of_nat (S n))); [|lia].
  cbn [andb Nat.leb].
  destruct (Z.leb_spec (Z.of_nat (S n)) 4), (Nat.leb_spec n 3);
    try reflexivity; lia.
Qed.

End SSFeeProps.
